(** * Winerp client for Node: the protocol engine of [src/client.ts]

    A shallow embedding of [types.ts] (the payload kinds and the
    [MessagePayload] class) and of [src/client.ts] (the [Client] class:
    authorization flags, route dispatch, request correlation), followed by
    the properties of the engine.

    The repository holds the client three times.  The embedding follows
    [src/client.ts].  The second copy keeps the socket in a static field
    of the class and has an [is_connected] flag; its handlers, [inform]
    and [request] are the same code.  The third copy has the same
    handlers and no guards at the head of [inform] and [request]: it can
    call [send] before the socket has opened, where [send] throws, and is
    left out.

    What the JavaScript runtime contributes is modelled here once:
    - a JS value that JSON can carry is a [json]; [undefined] is [None];
    - a transport text frame is the document it denotes, or ill-formed
      text on which [JSON.parse] throws;
    - [send] hands a frame to a socket that has opened, and the frames
      handed over are recorded in order.  In [src/client.ts] every call of
      [send] is behind the open event: [__verify] runs in the handler of
      that event, the dispatcher in the handler of a message, [request]
      and [inform] behind the [_authorized] guard, which only a message
      lifts;
    - [setTimeout] is Node's: a delay outside 1 .. 2^31 - 1 milliseconds
      is set to 1 millisecond;
    - the event loop owns the timers, the promises created by [request],
      the promise reactions of the dispatcher and a clock in milliseconds;
      a timer fires in the turn in which the clock reaches its time. *)

From Stdlib Require Import ZArith.
From stdpp Require Import base option list gmap strings fin_maps.

#[local] Set Warnings "-register-all".
#[local] Open Scope Z_scope.

(** ** JavaScript values *)

(** Numbers are modelled by the integers; the engine itself reads no
    number but the payload kind.  An object is a finite map from its keys. *)
Inductive json : Type :=
| JNull
| JBool (b : bool)
| JNum (n : Z)
| JStr (s : string)
| JArr (items : list json)
| JObj (members : gmap string json).

(** [v.k] for [v] other than [null]: a member of an object, [undefined]
    on anything else (the engine reads no property that a string, a
    number or an array has). *)
Definition prop (k : string) (v : json) : option json :=
  match v with
  | JObj members => members !! k
  | _ => None
  end.

(** [v || d] keeps [v] unless it is falsy. *)
Definition truthy (v : option json) : bool :=
  match v with
  | None | Some JNull | Some (JBool false) | Some (JNum 0) | Some (JStr EmptyString) => false
  | Some _ => true
  end.

Definition or_else (v : option json) (d : json) : json :=
  match v with
  | Some j => if truthy v then j else d
  | None => d
  end.

(** [v === s] against a string, [v === n] against a number. *)
Definition strict_eq_str (v : option json) (s : string) : bool :=
  match v with
  | Some (JStr t) => bool_decide (t = s)
  | _ => false
  end.

Definition strict_eq_num (v : option json) (n : Z) : bool :=
  match v with
  | Some (JNum m) => bool_decide (m = n)
  | _ => false
  end.

(** ** Transport frames and the JSON library *)

Inductive frame : Type :=
| Text (doc : json)
| Malformed.

(** An object literal; [JSON.stringify] leaves out the members whose
    value is [undefined]. *)
Definition object_literal (members : list (string * option json)) : json :=
  JObj (list_to_map (omap (λ kv, (fst kv,.) <$> snd kv) members)).

Definition JSON_stringify (members : list (string * option json)) : frame :=
  Text (object_literal members).

Definition JSON_parse (text : frame) : option json :=
  match text with
  | Text doc => Some doc
  | Malformed => None
  end.

(** ** [src/types.ts] *)

Module Paylods.
Inductive t : Type :=
| success | verification | request | response
| error | ping | information | function_call.

Definition code (p : t) : Z :=
  match p with
  | success => 0 | verification => 1 | request => 2 | response => 3
  | error => 4 | ping => 5 | information => 6 | function_call => 7
  end.
End Paylods.

(** [data.type === Paylods.p] *)
Definition is_type (data : json) (p : Paylods.t) : bool :=
  strict_eq_num (prop "type" data) (Paylods.code p).

Module MessagePayload.
(** The argument of the constructor. *)
Record msg : Type := Msg {
  id : option json;
  type : Paylods.t;
  route : option json;
  traceback : option json;
  data : option json;
  uuid : option json;
  destination : option json;
  pseudo_object : option json
}.

(** An instance of the class. *)
Record t : Type := New {
  this_id : option json;
  this_type : Paylods.t;
  this_route : option json;
  this_traceback : option json;
  this_data : json;
  this_uuid : option json;
  this_destination : option json;
  this_pseudo_object : option json
}.

Definition new (m : msg) : t :=
  {| this_id := id m;
     this_type := type m;
     this_route := route m;
     this_traceback := traceback m;
     this_data := or_else (data m) (JObj ∅);
     this_uuid := uuid m;
     this_destination := destination m;
     this_pseudo_object := pseudo_object m |}.

(** The object literal of [toString]. *)
Definition members (p : t) : list (string * option json) :=
  [("id", this_id p);
   ("type", Some (JNum (Paylods.code (this_type p))));
   ("route", this_route p);
   ("data", Some (this_data p));
   ("traceback", this_traceback p);
   ("uuid", this_uuid p);
   ("destination", this_destination p);
   ("pseudo_object", this_pseudo_object p)].

Definition toString (p : t) : frame :=
  JSON_stringify (members p).
End MessagePayload.

Record ClientProps : Type := {
  host : string;
  port : string;
  props_local_name : string
}.

Record RequestProps : Type := {
  req_route : string;
  req_destination : string;
  req_data : json;
  req_timeout : option Z
}.

(** [destinations] is declared [string[]]; [inform] also takes one name. *)
Inductive Destinations : Type :=
| One (name : string)
| Many (names : list string).

Record InformPayload : Type := {
  inf_route : string;
  inf_destinations : Destinations;
  inf_data : json
}.

(** What a handler's promise does: it is fulfilled with a value, it is
    rejected, or it never settles.  A promise that settles is taken to
    have settled by the end of the turn in which the handler was called,
    so its reaction runs at the end of that turn.  A rejection is an
    [Error] instance with its message, or any other value. *)
Inductive rejection : Type :=
| ErrorObject (message : string)
| NotAnError.

Inductive Promise : Type :=
| Fulfils (res : option json)
| Rejects (reason : rejection)
| NeverSettles.

(** A call of a handler returns its promise or throws at once. *)
Inductive Returned : Type :=
| Returns (p : Promise)
| ThrowsAtOnce (reason : rejection).

Definition RouteHandler : Type := option json → Returned.

(** ** The state: the client, its socket and the event loop *)

Inductive Settlement : Type :=
| Pending
| Resolved (value : option json).

(** What one call of [request] creates and its closures share: [uuid]
    and the promise that [resolve] settles.  The calls are numbered; the
    listener [respond] and the timer [_timeout] of call [k] are told
    apart from those of the other calls by [k]. *)
Record Scope : Type := {
  scope_uuid : string;
  scope_promise : Settlement
}.

(** The listeners of the socket's [message] event. *)
Inductive Listener : Type :=
| OnMessage
| Respond (k : nat).

#[global] Instance Listener_eq_dec : EqDecision Listener.
Proof. solve_decision. Defined.

Record Timer : Type := {
  owner : nat;
  due : Z
}.

#[global] Instance Timer_eq_dec : EqDecision Timer.
Proof. solve_decision. Defined.

(** The reactions that [handleMessage] attaches to a handler's promise. *)
Inductive Job : Type :=
| Then (res : option json)
| Catch (reason : rejection).

Record World : Type := World_ {
  (* the fields of the Client *)
  routes : gmap string RouteHandler;
  _authorized : bool;
  _on_hold : bool;
  local_name : string;
  (* this.client *)
  sent : list frame;
  listeners : list Listener;
  (* the event loop *)
  now : Z;
  timers : list Timer;
  scopes : list Scope;
  microtasks : list Job;
  console : list string;
  calls : list (string * option json)
}.

Definition set_routes (x : gmap string RouteHandler) (w : World) : World :=
  World_ x (_authorized w) (_on_hold w) (local_name w) (sent w) (listeners w)
    (now w) (timers w) (scopes w) (microtasks w) (console w) (calls w).
Definition set_authorized (x : bool) (w : World) : World :=
  World_ (routes w) x (_on_hold w) (local_name w) (sent w) (listeners w)
    (now w) (timers w) (scopes w) (microtasks w) (console w) (calls w).
Definition set_on_hold (x : bool) (w : World) : World :=
  World_ (routes w) (_authorized w) x (local_name w) (sent w) (listeners w)
    (now w) (timers w) (scopes w) (microtasks w) (console w) (calls w).
Definition set_sent (x : list frame) (w : World) : World :=
  World_ (routes w) (_authorized w) (_on_hold w) (local_name w) x (listeners w)
    (now w) (timers w) (scopes w) (microtasks w) (console w) (calls w).
Definition set_listeners (x : list Listener) (w : World) : World :=
  World_ (routes w) (_authorized w) (_on_hold w) (local_name w) (sent w) x
    (now w) (timers w) (scopes w) (microtasks w) (console w) (calls w).
Definition set_now (x : Z) (w : World) : World :=
  World_ (routes w) (_authorized w) (_on_hold w) (local_name w) (sent w) (listeners w)
    x (timers w) (scopes w) (microtasks w) (console w) (calls w).
Definition set_timers (x : list Timer) (w : World) : World :=
  World_ (routes w) (_authorized w) (_on_hold w) (local_name w) (sent w) (listeners w)
    (now w) x (scopes w) (microtasks w) (console w) (calls w).
Definition set_scopes (x : list Scope) (w : World) : World :=
  World_ (routes w) (_authorized w) (_on_hold w) (local_name w) (sent w) (listeners w)
    (now w) (timers w) x (microtasks w) (console w) (calls w).
Definition set_microtasks (x : list Job) (w : World) : World :=
  World_ (routes w) (_authorized w) (_on_hold w) (local_name w) (sent w) (listeners w)
    (now w) (timers w) (scopes w) x (console w) (calls w).
Definition set_console (x : list string) (w : World) : World :=
  World_ (routes w) (_authorized w) (_on_hold w) (local_name w) (sent w) (listeners w)
    (now w) (timers w) (scopes w) (microtasks w) x (calls w).
Definition set_calls (x : list (string * option json)) (w : World) : World :=
  World_ (routes w) (_authorized w) (_on_hold w) (local_name w) (sent w) (listeners w)
    (now w) (timers w) (scopes w) (microtasks w) (console w) x.

(** ** Statements that may throw *)

Inductive exn : Type :=
| SyntaxError
| TypeError
| Error (message : string)
| Thrown (reason : rejection).

Inductive Completion (A : Type) : Type :=
| Normal (a : A) (w : World)
| Throw (e : exn) (w : World).
Arguments Normal {A} a w.
Arguments Throw {A} e w.

Definition M (A : Type) : Type := World → Completion A.

#[global] Instance M_ret : MRet M := λ A a w, Normal a w.
#[global] Instance M_bind : MBind M := λ A B f m w,
  match m w with
  | Normal a w' => f a w'
  | Throw e w' => Throw e w'
  end.

Definition throw {A : Type} (e : exn) : M A := λ w, Throw e w.
Definition gets {A : Type} (f : World → A) : M A := λ w, Normal (f w) w.
Definition modify (f : World → World) : M unit := λ w, Normal tt (f w).
Definition when (b : bool) (m : M unit) : M unit := if b then m else mret tt.

Definition world_of {A : Type} (c : Completion A) : World :=
  match c with
  | Normal _ w => w
  | Throw _ w => w
  end.

Definition throws {A : Type} (c : Completion A) : option exn :=
  match c with
  | Normal _ _ => None
  | Throw e _ => Some e
  end.

(** ** The runtime's operations *)

Definition parse (text : frame) : M json :=
  match JSON_parse text with
  | Some doc => mret doc
  | None => throw SyntaxError
  end.

(** Reading a property of [null] throws. *)
Definition member (k : string) (v : json) : M (option json) :=
  match v with
  | JNull => throw TypeError
  | _ => mret (prop k v)
  end.

Definition send (text : frame) : M unit :=
  modify (λ w, set_sent (sent w ++ [text]) w).

Definition addEventListener (l : Listener) : M unit :=
  modify (λ w, set_listeners (listeners w ++ [l]) w).

Definition removeEventListener (l : Listener) : M unit :=
  modify (λ w, set_listeners (filter (λ x, x ≠ l) (listeners w)) w).

(** The timers are kept in the order in which they fall due; among equal
    times the one set first comes first. *)
Fixpoint schedule (tm : Timer) (queue : list Timer) : list Timer :=
  match queue with
  | [] => [tm]
  | x :: rest =>
      if bool_decide (due x ≤ due tm) then x :: schedule tm rest
      else tm :: queue
  end.

(** Node's timers take a delay of 1 to [TIMEOUT_MAX] milliseconds as it
    is and set any other delay to 1. *)
Definition TIMEOUT_MAX : Z := 2 ^ 31 - 1.

Definition _idleTimeout (after : Z) : Z :=
  if bool_decide (1 ≤ after ≤ TIMEOUT_MAX) then after else 1.

Definition setTimeout (k : nat) (delay : Z) : M unit :=
  modify (λ w,
    set_timers
      (schedule {| owner := k; due := now w + _idleTimeout delay |} (timers w)) w).

Definition clearTimeout (k : nat) : M unit :=
  modify (λ w, set_timers (filter (λ tm, owner tm ≠ k) (timers w)) w).

(** [new Promise(...)] with [const uuid = uuid4()]: the number of the call. *)
Definition new_scope (uuid4 : string) : M nat :=
  k ← gets (λ w, length (scopes w));
  modify (λ w, set_scopes (scopes w ++ [{| scope_uuid := uuid4; scope_promise := Pending |}]) w);;
  mret k.

(** [resolve(v)] settles a pending promise and does nothing to a settled one. *)
Definition settle (v : option json) (env : Scope) : Scope :=
  match scope_promise env with
  | Pending => {| scope_uuid := scope_uuid env; scope_promise := Resolved v |}
  | Resolved _ => env
  end.

Definition resolve (k : nat) (v : option json) : M unit :=
  modify (λ w, set_scopes (alter (settle v) k (scopes w)) w).

Definition console_log (line : string) : M unit :=
  modify (λ w, set_console (console w ++ [line]) w).

(** [this.routes.get(key)]: the keys of the table are strings. *)
Definition routes_get (key : option json) (table : gmap string RouteHandler)
  : option (string * RouteHandler) :=
  match key with
  | Some (JStr name) => (name,.) <$> table !! name
  | _ => None
  end.

(** Calling a handler: user code runs. *)
Definition call (name : string) (handler : RouteHandler) (arg : option json) : M Promise :=
  modify (λ w, set_calls (calls w ++ [(name, arg)]) w);;
  match handler arg with
  | Returns p => mret p
  | ThrowsAtOnce reason => throw (Thrown reason)
  end.

(** [p.then(f).catch(g)]: the reaction of a promise that settles. *)
Definition react (p : Promise) : M unit :=
  match p with
  | Fulfils res => modify (λ w, set_microtasks (microtasks w ++ [Then res]) w)
  | Rejects reason => modify (λ w, set_microtasks (microtasks w ++ [Catch reason]) w)
  | NeverSettles => mret tt
  end.

(** ** [src/client.ts] *)

Module Client.
(** [new Client({ host, port, local_name })]: the socket is created
    with [handleMessage] as its one [message] listener. *)
Definition new (props : ClientProps) : World :=
  {| routes := ∅;
     _authorized := false;
     _on_hold := false;
     local_name := props_local_name props;
     sent := [];
     listeners := [OnMessage];
     now := 0;
     timers := [];
     scopes := [];
     microtasks := [];
     console := [];
     calls := [] |}.

(** [uuid4 ()] is the identifier that the generator hands out. *)
Definition __verify (uuid4 : string) : M unit :=
  name ← gets local_name;
  send (JSON_stringify
          [("id", Some (JStr name));
           ("uuid", Some (JStr uuid4));
           ("type", Some (JNum (Paylods.code Paylods.verification)))]).

Definition handleConnect (uuid4 : string) : M unit :=
  __verify uuid4.

Definition handleDisconnect : M unit :=
  console_log "Disconnected".

(** The two reactions on the promise of a handler. *)
Definition onFulfilled (res : option json) : M unit :=
  name ← gets local_name;
  let payload :=
    MessagePayload.new
      {| MessagePayload.id := Some (JStr name);
         MessagePayload.type := Paylods.response;
         MessagePayload.route := None;
         MessagePayload.traceback := None;
         MessagePayload.data := res;
         MessagePayload.uuid := None;
         MessagePayload.destination := None;
         MessagePayload.pseudo_object := None |} in
  send (MessagePayload.toString payload).

Definition onRejected (error : rejection) : M unit :=
  name ← gets local_name;
  let error_message :=
    match error with
    | ErrorObject message => message
    | NotAnError => "Internal Server Error"%string
    end in
  send (MessagePayload.toString
          (MessagePayload.new
             {| MessagePayload.id := Some (JStr name);
                MessagePayload.type := Paylods.error;
                MessagePayload.route := None;
                MessagePayload.traceback := None;
                MessagePayload.data := Some (JStr error_message);
                MessagePayload.uuid := None;
                MessagePayload.destination := None;
                MessagePayload.pseudo_object := None |})).

Definition handleMessage (event : frame) : M unit :=
  data ← parse event;
  type ← member "type" data;
  when (strict_eq_num type (Paylods.code Paylods.success))
    (modify (set_authorized true);;
     modify (set_on_hold false));;
  when (strict_eq_num type (Paylods.code Paylods.error)
        && strict_eq_str (prop "data" data) "Already authorized.")
    (modify (set_on_hold true));;
  if strict_eq_num type (Paylods.code Paylods.request) then
    table ← gets routes;
    match routes_get (prop "route" data) table with
    | None =>
        name ← gets local_name;
        let payload :=
          MessagePayload.new
            {| MessagePayload.type := Paylods.error;
               MessagePayload.id := Some (JStr name);
               MessagePayload.data := Some (JStr "Route not found");
               MessagePayload.traceback := Some (JStr "Route not found");
               MessagePayload.destination := prop "id" data;
               MessagePayload.uuid := prop "uuid" data;
               MessagePayload.route := None;
               MessagePayload.pseudo_object := None |} in
        send (MessagePayload.toString payload)
    | Some (name, route) =>
        p ← call name route (prop "data" data);
        react p
    end
  else mret tt.

Definition inform (p : InformPayload) : M unit :=
  authorized ← gets _authorized;
  if negb authorized : bool
  then throw (Error "The client is not authorized.")
  else
    on_hold ← gets _on_hold;
    if on_hold : bool
    then throw (Error "The client is on hold")
    else
      send (MessagePayload.toString
              (MessagePayload.new
                 {| MessagePayload.type := Paylods.information;
                    MessagePayload.route :=
                      Some (JArr (JStr <$>
                        match inf_destinations p with
                        | Many names => names
                        | One name => [name]
                        end));
                    MessagePayload.data := Some (inf_data p);
                    MessagePayload.id := None;
                    MessagePayload.traceback := None;
                    MessagePayload.uuid := None;
                    MessagePayload.destination := None;
                    MessagePayload.pseudo_object := None |})).

(** The listener of one pending request. *)
Definition respond (k : nat) (event : frame) : M unit :=
  data ← parse event;
  id ← member "uuid" data;
  env ← gets (λ w, scopes w !! k);
  match env with
  | None => mret tt
  | Some env =>
      if strict_eq_str id (scope_uuid env) then
        if is_type data Paylods.response then
          removeEventListener (Respond k);;
          clearTimeout k;;
          resolve k (prop "data" data)
        else if is_type data Paylods.error then
          removeEventListener (Respond k);;
          clearTimeout k;;
          resolve k (Some JNull)
        else mret tt
      else mret tt
  end.

(** The callback of its timer. *)
Definition onTimeout (k : nat) : M unit :=
  removeEventListener (Respond k);;
  resolve k (Some JNull).

Definition timeout_of (p : RequestProps) : Z :=
  default 60 (req_timeout p).

(** [request] returns its promise. *)
Definition request (p : RequestProps) (uuid4 : string) : M nat :=
  authorized ← gets _authorized;
  if negb authorized : bool
  then throw (Error "The client is not authorized.")
  else
    on_hold ← gets _on_hold;
    if on_hold : bool
    then throw (Error "The client is on hold")
    else
      k ← new_scope uuid4;
      name ← gets local_name;
      let payload :=
        MessagePayload.new
          {| MessagePayload.type := Paylods.request;
             MessagePayload.id := Some (JStr name);
             MessagePayload.destination := Some (JStr (req_destination p));
             MessagePayload.route := Some (JStr (req_route p));
             MessagePayload.data := Some (req_data p);
             MessagePayload.uuid := Some (JStr uuid4);
             MessagePayload.traceback := None;
             MessagePayload.pseudo_object := None |} in
      send (MessagePayload.toString payload);;
      addEventListener (Respond k);;
      setTimeout k (timeout_of p * 1000);;
      mret k.

Definition route (name : string) (handler : RouteHandler) : M unit :=
  modify (λ w, set_routes (<[name := handler]> (routes w)) w).
End Client.

(** ** The event loop *)

Definition call_listener (l : Listener) (event : frame) : M unit :=
  match l with
  | OnMessage => Client.handleMessage event
  | Respond k => Client.respond k event
  end.

Fixpoint call_all (ls : list Listener) (event : frame) : M unit :=
  match ls with
  | [] => mret tt
  | l :: rest => call_listener l event;; call_all rest event
  end.

Definition run_job (j : Job) : M unit :=
  match j with
  | Then res => Client.onFulfilled res
  | Catch reason => Client.onRejected reason
  end.

Fixpoint run_jobs (js : list Job) : M unit :=
  match js with
  | [] => mret tt
  | j :: rest => run_job j;; run_jobs rest
  end.

Definition perform_microtasks : M unit :=
  js ← gets microtasks;
  modify (set_microtasks []);;
  run_jobs js.

(** A [message] event: the listeners registered at that moment are
    called in order, then the reactions that became ready run. *)
Definition emit_message (event : frame) : M unit :=
  ls ← gets listeners;
  call_all ls event;;
  perform_microtasks.

Fixpoint fire (tms : list Timer) : M unit :=
  match tms with
  | [] => mret tt
  | tm :: rest => Client.onTimeout (owner tm);; fire rest
  end.

(** The clock reaches [t]: the timers due by then fire. *)
Definition advance (t : Z) : M unit :=
  expired ← gets (λ w, filter (λ tm, due tm ≤ t) (timers w));
  modify (λ w, set_timers (filter (λ tm, ¬ due tm ≤ t) (timers w)) w);;
  modify (λ w, set_now (Z.max (now w) t) w);;
  fire expired.

(** What can happen to a client. *)
Inductive Event : Type :=
| Open (uuid4 : string)
| Close
| Message (text : frame)
| Advance (t : Z)
| Inform (p : InformPayload)
| Request (p : RequestProps) (uuid4 : string)
| Route (name : string) (handler : RouteHandler).

Definition step (e : Event) : M unit :=
  match e with
  | Open uuid4 => Client.handleConnect uuid4
  | Close => Client.handleDisconnect
  | Message text => emit_message text
  | Advance t => advance t
  | Inform p => Client.inform p
  | Request p uuid4 => Client.request p uuid4;; mret tt
  | Route name handler => Client.route name handler
  end.

(** A thrown exception leaves the state as it was at the throw. *)
Definition run (events : list Event) (w : World) : World :=
  foldl (λ w e, world_of (step e w)) w events.


(** ** The vocabulary of the properties *)

(** [JSON.parse(text).k] *)
Definition field (k : string) (text : frame) : option json :=
  JSON_parse text ≫= prop k.

(** The two errors of the guards. *)
Definition NotAuthorized : exn := Error "The client is not authorized.".
Definition OnHold : exn := Error "The client is on hold".

(** The promise of call [k]. *)
Definition promise (k : nat) (w : World) : option Settlement :=
  scope_promise <$> scopes w !! k.

(** Call [k] is still waiting: its listener is registered, its timer is
    set for [d] and its promise is pending. *)
Definition waiting (k : nat) (u : string) (d : Z) (w : World) : Prop :=
  Respond k ∈ listeners w ∧
  {| owner := k; due := d |} ∈ timers w ∧
  scopes w !! k = Some {| scope_uuid := u; scope_promise := Pending |}.

(** Call [k] is over with value [v]: neither its listener nor its timer
    is left. *)
Definition over (k : nat) (u : string) (v : option json) (w : World) : Prop :=
  (Respond k ∉ listeners w) ∧
  (k ∉ owner <$> timers w) ∧
  scopes w !! k = Some {| scope_uuid := u; scope_promise := Resolved v |}.

(** What the listener of a request with identifier [u] makes of a parsed
    message: the value it resolves with, if it acts. *)
Definition answer (u : string) (doc : json) : option (option json) :=
  if strict_eq_str (prop "uuid" doc) u then
    if is_type doc Paylods.response then Some (prop "data" doc)
    else if is_type doc Paylods.error then Some (Some JNull)
    else None
  else None.

Definition answers (u : string) (text : frame) : option (option json) :=
  JSON_parse text ≫= answer u.

(** The state after [respond] of call [k] acted, and after its timer did. *)
Definition finish (k : nat) (v : option json) (w : World) : World :=
  set_scopes (alter (settle v) k (scopes w))
    (set_timers (filter (λ tm, owner tm ≠ k) (timers w))
       (set_listeners (filter (λ x, x ≠ Respond k) (listeners w)) w)).

Definition lapse (k : nat) (w : World) : World :=
  set_scopes (alter (settle (Some JNull)) k (scopes w))
    (set_listeners (filter (λ x, x ≠ Respond k) (listeners w)) w).

Definition respond_effect (doc : json) (w : World) (k : nat) : World :=
  match scopes w !! k with
  | Some env =>
      match answer (scope_uuid env) doc with
      | Some v => finish k v w
      | None => w
      end
  | None => w
  end.

(** The well-formed states of the correlator.  [popped] are the timers
    taken off the queue whose callbacks have not run yet. *)
Record inv (popped : list nat) (w : World) : Prop := {
  inv_listeners : ∃ ks, listeners w = OnMessage :: (Respond <$> ks);
  inv_timers : NoDup ((owner <$> timers w) ++ popped);
  inv_armed : ∀ k, Respond k ∈ listeners w ↔ k ∈ (owner <$> timers w) ++ popped;
  inv_pending : ∀ k, Respond k ∈ listeners w → promise k w = Some Pending
}.

Definition wf (w : World) : Prop := inv [] w ∧ microtasks w = [].

(** The frames of a trace. *)
Definition message_of (e : Event) : option frame :=
  match e with
  | Message text => Some text
  | _ => None
  end.


(** No message of the trace is a [Success] envelope. *)
Definition is_success (text : frame) : bool :=
  match JSON_parse text with
  | Some doc => is_type doc Paylods.success
  | None => false
  end.

Definition no_success (events : list Event) : Prop :=
  ∀ text, Message text ∈ events → is_success text = false.

(** The frame that the reaction [j] of a client called [name] sends. *)
Definition reply (name : string) (j : Job) : frame :=
  match j with
  | Then res =>
      MessagePayload.toString
        (MessagePayload.new
           {| MessagePayload.id := Some (JStr name);
              MessagePayload.type := Paylods.response;
              MessagePayload.route := None;
              MessagePayload.traceback := None;
              MessagePayload.data := res;
              MessagePayload.uuid := None;
              MessagePayload.destination := None;
              MessagePayload.pseudo_object := None |})
  | Catch reason =>
      MessagePayload.toString
        (MessagePayload.new
           {| MessagePayload.id := Some (JStr name);
              MessagePayload.type := Paylods.error;
              MessagePayload.route := None;
              MessagePayload.traceback := None;
              MessagePayload.data :=
                Some (JStr match reason with
                           | ErrorObject message => message
                           | NotAnError => "Internal Server Error"
                           end);
              MessagePayload.uuid := None;
              MessagePayload.destination := None;
              MessagePayload.pseudo_object := None |})
  end.

(** The state once the queued reactions have run. *)
Definition drained (w : World) : World :=
  set_sent (sent w ++ (reply (local_name w) <$> microtasks w)) (set_microtasks [] w).

(** [request] past its guards. *)
Definition requested (p : RequestProps) (uuid4 : string) (w : World) : World :=
  let k := length (scopes w) in
  set_timers
    (schedule
       {| owner := k; due := now w + _idleTimeout (Client.timeout_of p * 1000) |}
       (timers w))
    (set_listeners (listeners w ++ [Respond k])
       (set_sent
          (sent w ++
           [MessagePayload.toString
              (MessagePayload.new
                 {| MessagePayload.type := Paylods.request;
                    MessagePayload.id := Some (JStr (local_name w));
                    MessagePayload.destination := Some (JStr (req_destination p));
                    MessagePayload.route := Some (JStr (req_route p));
                    MessagePayload.data := Some (req_data p);
                    MessagePayload.uuid := Some (JStr uuid4);
                    MessagePayload.traceback := None;
                    MessagePayload.pseudo_object := None |})])
          (set_scopes
             (scopes w ++ [{| scope_uuid := uuid4; scope_promise := Pending |}]) w))).

(** [w'] differs from [w] in the correlator at most: the listeners, the
    timers and the calls of [request]. *)
Definition same_client (w w' : World) : Prop :=
  w' = set_scopes (scopes w') (set_timers (timers w') (set_listeners (listeners w') w)).

(** The [Error] envelope that puts the client on hold. *)
Definition is_already_authorized (text : frame) : bool :=
  match JSON_parse text with
  | Some doc =>
      is_type doc Paylods.error
      && strict_eq_str (prop "data" doc) "Already authorized."
  | None => false
  end.

(** ** Two clients for the examples *)

Definition dashboard : ClientProps :=
  {| host := "localhost"; port := "2033"; props_local_name := "dashboard" |}.

Definition bot : ClientProps :=
  {| host := "localhost"; port := "2033"; props_local_name := "bot" |}.

(** The [Success] envelope of the relay. *)
Definition success_frame : frame :=
  Text (JObj {[ "type" := JNum 0 ]}).

(** The relay's refusal of a name that is taken. *)
Definition already_authorized_frame : frame :=
  Text (JObj (<["type" := JNum 4]> {[ "data" := JStr "Already authorized." ]})).

(** A client that connected and was authorized. *)
Definition authorized (props : ClientProps) : World :=
  run [Open "c0ffee"; Message success_frame] (Client.new props).

Definition get_roles : RequestProps :=
  {| req_route := "get_roles";
     req_destination := "bot";
     req_data := JObj {[ "guild_id" := JNum 123 ]};
     req_timeout := Some 60 |}.

Definition sync : InformPayload :=
  {| inf_route := "sync";
     inf_destinations := Many ["bot"%string];
     inf_data := JObj {[ "sync" := JBool true ]} |}.

(** The frame that answers a request for a route that is not registered. *)
Definition route_not_found (name : string) (doc : json) : frame :=
  MessagePayload.toString
    (MessagePayload.new
       {| MessagePayload.type := Paylods.error;
          MessagePayload.id := Some (JStr name);
          MessagePayload.data := Some (JStr "Route not found");
          MessagePayload.traceback := Some (JStr "Route not found");
          MessagePayload.destination := prop "id" doc;
          MessagePayload.uuid := prop "uuid" doc;
          MessagePayload.route := None;
          MessagePayload.pseudo_object := None |}).

(** Two requests in flight. *)
Definition two_requests : World :=
  run [Request get_roles "aaaa"; Request get_roles "bbbb"] (authorized dashboard).

Definition response_frame (uuid : string) (data : json) : frame :=
  Text (JObj (list_to_map
    [("id", JStr "bot"); ("type", JNum 3); ("data", data); ("uuid", JStr uuid)]%string)).

(** A request that leaves the timeout to its default. *)
Definition ping : RequestProps :=
  {| req_route := "ping";
     req_destination := "bot";
     req_data := JObj ∅;
     req_timeout := None |}.

(** The ping scenario: [bot] serves the route "ping", [dashboard] asks. *)
Definition pong : RouteHandler :=
  λ _, Returns (Fulfils (Some (JObj {[ "pong" := JBool true ]}))).

Definition serving (handler : RouteHandler) : World :=
  run [Route "ping" handler] (authorized bot).

Definition asking : World := requested ping "aaaa" (authorized dashboard).

(** A handler whose promise rejects with [new Error()]. *)
Definition failing : RouteHandler :=
  λ _, Returns (Rejects (ErrorObject EmptyString)).

(** The state after a request was dispatched to the handler [name]. *)
Definition dispatched (name : string) (arg : option json) (p : Promise)
    (w : World) : World :=
  set_sent
    (sent w ++
     match p with
     | Fulfils res => [reply (local_name w) (Then res)]
     | Rejects reason => [reply (local_name w) (Catch reason)]
     | NeverSettles => []
     end)
    (set_calls (calls w ++ [(name, arg)]) w).

(** What the TypeScript types allow as the argument of the constructor. *)
Definition is_string (v : json) : Prop :=
  match v with
  | JStr _ => True
  | _ => False
  end.

Definition is_record_or_string (v : json) : Prop :=
  match v with
  | JStr _ | JObj _ => True
  | _ => False
  end.

Definition is_route (v : json) : Prop :=
  match v with
  | JStr _ => True
  | JArr items => Forall is_string items
  | _ => False
  end.

Definition optional (P : json → Prop) (v : option json) : Prop :=
  match v with
  | Some j => P j
  | None => True
  end.

Definition well_typed (m : MessagePayload.msg) : Prop :=
  optional is_string (MessagePayload.id m) ∧
  optional is_route (MessagePayload.route m) ∧
  optional is_string (MessagePayload.traceback m) ∧
  optional is_record_or_string (MessagePayload.data m) ∧
  optional is_string (MessagePayload.uuid m) ∧
  optional is_string (MessagePayload.destination m).

(** [decode (encode m)] *)
Definition encode (m : MessagePayload.msg) : frame :=
  MessagePayload.toString (MessagePayload.new m).

(** An envelope whose [data] is the empty string. *)
Definition empty_data : MessagePayload.msg :=
  {| MessagePayload.id := Some (JStr "bot");
     MessagePayload.type := Paylods.response;
     MessagePayload.route := None;
     MessagePayload.traceback := None;
     MessagePayload.data := Some (JStr EmptyString);
     MessagePayload.uuid := Some (JStr "aaaa");
     MessagePayload.destination := Some (JStr "dashboard");
     MessagePayload.pseudo_object := None |}.

(** The frame that a client sent last. *)
Definition last_sent (w : World) : frame :=
  default Malformed (last (sent w)).

(** The request of [dashboard] on the wire, and what the dispatcher of
    [bot] sends back for it. *)
Definition ping_frame : frame := last_sent asking.

Definition answer_frame (handler : RouteHandler) : frame :=
  last_sent (world_of (emit_message ping_frame (serving handler))).

(** A request for a route that nobody registered. *)
Definition unknown_request : json :=
  JObj (list_to_map
    [("id", JStr "dashboard"); ("type", JNum 2); ("route", JStr "unknown");
     ("data", JObj ∅); ("uuid", JStr "u1"); ("destination", JStr "bot")]%string).

(** ** Proof automation *)

(** Unfold the monadic code. *)
Ltac exec :=
  unfold Client.request, Client.inform, Client.handleMessage,
    Client.respond, Client.onTimeout, Client.handleDisconnect, Client.handleConnect,
    Client.__verify, Client.route, Client.onFulfilled, Client.onRejected,
    new_scope, send, addEventListener, removeEventListener, setTimeout, clearTimeout,
    resolve, console_log, call, react, parse, member, when, throw, gets, modify,
    mbind, M_bind, mret, M_ret in *.

(** Split on every [match] and [if] in sight. *)
Ltac cases :=
  simplify_eq/=; try done; repeat (case_match; simplify_eq/=; try done).

(** Decide a closed proposition by evaluation. *)
Ltac by_evaluation := apply (bool_decide_unpack _); vm_compute; exact I.

(** [dashboard] asks [bot] for a route that [bot] does not serve. *)
Definition asking_unknown : World :=
  requested
    {| req_route := "unknown"; req_destination := "bot";
       req_data := JObj ∅; req_timeout := None |}
    "aaaa" (authorized dashboard).

(** ** More vocabulary: the life of a client *)

(** Every call of [request] made so far is waiting, with listener and
    timer, or over, with neither. *)
Definition tidy (w : World) : Prop :=
  ∀ k env, scopes w !! k = Some env →
    (∃ d, waiting k (scope_uuid env) d w) ∨ (∃ v, over k (scope_uuid env) v w).

(** The names that [inform] puts on the wire. *)
Definition names_of (d : Destinations) : list string :=
  match d with
  | Many names => names
  | One name => [name]
  end.

(** No event of the trace registers the route [name]. *)
Definition not_registered (name : string) (events : list Event) : Prop :=
  ∀ handler, Route name handler ∉ events.

(** A request on the wire, for the route [name]. *)
Definition request_for (name : string) : json :=
  JObj (list_to_map
    [("id", JStr "dashboard"); ("type", JNum 2); ("route", JStr name);
     ("data", JObj {[ "guild_id" := JNum 123 ]}); ("uuid", JStr "aaaa");
     ("destination", JStr "bot")]%string).

(** Handlers that throw before they return a promise, and whose promise
    never settles. *)
Definition throwing : RouteHandler :=
  λ _, ThrowsAtOnce (ErrorObject "boom").

Definition silent : RouteHandler :=
  λ _, Returns NeverSettles.

(** An [Error] envelope and a [Ping] envelope that carry an identifier. *)
Definition error_frame (uuid : string) : frame :=
  Text (JObj (list_to_map
    [("type", JNum 4); ("data", JStr "no such client"); ("uuid", JStr uuid)]%string)).

Definition ping_envelope (uuid : string) : frame :=
  Text (JObj (list_to_map [("type", JNum 5); ("uuid", JStr uuid)]%string)).

(** Two requests that got the same identifier. *)
Definition twins : World :=
  run [Request get_roles "aaaa"; Request ping "aaaa"] (authorized dashboard).

(** An envelope that leaves [data] out. *)
Definition no_data : MessagePayload.msg :=
  {| MessagePayload.id := Some (JStr "bot");
     MessagePayload.type := Paylods.ping;
     MessagePayload.route := Some (JArr [JStr "a"; JStr "b"]);
     MessagePayload.traceback := None;
     MessagePayload.data := None;
     MessagePayload.uuid := Some (JStr "aaaa");
     MessagePayload.destination := None;
     MessagePayload.pseudo_object := Some JNull |}.

(** A client that the relay refuses, its name being taken, before it was
    ever authorized. *)
Definition refused : World :=
  run [Open "aaaa"; Message already_authorized_frame] (Client.new dashboard).


(** A handler whose promise rejects with an [Error] that has a message. *)
Definition rejecting : RouteHandler :=
  λ _, Returns (Rejects (ErrorObject "no such guild")).

(** ** The copy of the client with a static socket *)

(** In the second copy of [client.ts] the socket is the static field
    [Client.connection], shared by the instances of the class in one
    process, and each instance has a flag [is_connected].  The handlers,
    [inform], [request] and [route] are the code of [src/client.ts] with
    [Client.connection] for [this.client]; they run here on the state of
    one instance joined with the shared socket and event loop. *)
Module Static.
(** The fields of an instance. *)
Record Instance : Type := {
  inst_routes : gmap string RouteHandler;
  inst_authorized : bool;
  inst_on_hold : bool;
  inst_local_name : string;
  inst_host : string;
  inst_port : string;
  is_connected : bool
}.

(** The socket and the event loop. *)
Record Shared : Type := {
  shared_sent : list frame;
  shared_listeners : list Listener;
  shared_now : Z;
  shared_timers : list Timer;
  shared_scopes : list Scope;
  shared_microtasks : list Job;
  shared_console : list string;
  shared_calls : list (string * option json)
}.

(** A process: its instances in the order of their construction, and
    [Client.connection], which is unset or is the socket that carries
    the handlers of one instance. *)
Record Process : Type := {
  instances : list Instance;
  connection : option nat;
  shared : Shared
}.

Definition start : Process :=
  {| instances := [];
     connection := None;
     shared :=
       {| shared_sent := []; shared_listeners := []; shared_now := 0;
          shared_timers := []; shared_scopes := []; shared_microtasks := [];
          shared_console := []; shared_calls := [] |} |}.

(** The state that the code of an instance runs on, and back. *)
Definition view (c : Instance) (s : Shared) : World :=
  {| routes := inst_routes c;
     _authorized := inst_authorized c;
     _on_hold := inst_on_hold c;
     local_name := inst_local_name c;
     sent := shared_sent s;
     listeners := shared_listeners s;
     now := shared_now s;
     timers := shared_timers s;
     scopes := shared_scopes s;
     microtasks := shared_microtasks s;
     console := shared_console s;
     calls := shared_calls s |}.

Definition instance_of (w : World) (c : Instance) : Instance :=
  {| inst_routes := routes w;
     inst_authorized := _authorized w;
     inst_on_hold := _on_hold w;
     inst_local_name := local_name w;
     inst_host := inst_host c;
     inst_port := inst_port c;
     is_connected := is_connected c |}.

Definition shared_of (w : World) : Shared :=
  {| shared_sent := sent w;
     shared_listeners := listeners w;
     shared_now := now w;
     shared_timers := timers w;
     shared_scopes := scopes w;
     shared_microtasks := microtasks w;
     shared_console := console w;
     shared_calls := calls w |}.

(** Code of instance [i] runs. *)
Definition on {A : Type} (i : nat) (m : M A) (P : Process) : Process :=
  match instances P !! i with
  | Some c =>
      let w := world_of (m (view c (shared P))) in
      {| instances := <[i := instance_of w c]> (instances P);
         connection := connection P;
         shared := shared_of w |}
  | None => P
  end.

(** What a call of a method of instance [i] returns or throws. *)
Definition result {A : Type} (i : nat) (m : M A) (P : Process)
  : option (Completion A) :=
  (λ c, m (view c (shared P))) <$> instances P !! i.

(** [__connect]: the socket is created, with the handlers of this
    instance as its listeners, only if there is none yet. *)
Definition __connect (i : nat) (P : Process) : Process :=
  match connection P with
  | Some _ => P
  | None =>
      {| instances := instances P;
         connection := Some i;
         shared :=
           {| shared_sent := [];
              shared_listeners := [OnMessage];
              shared_now := shared_now (shared P);
              shared_timers := shared_timers (shared P);
              shared_scopes := shared_scopes (shared P);
              shared_microtasks := shared_microtasks (shared P);
              shared_console := shared_console (shared P);
              shared_calls := shared_calls (shared P) |} |}
  end.

(** [new Client({ host, port, local_name })] *)
Definition new (props : ClientProps) (P : Process) : Process :=
  let i := length (instances P) in
  __connect i
    {| instances :=
         instances P ++
         [{| inst_routes := ∅;
             inst_authorized := false;
             inst_on_hold := false;
             inst_local_name := props_local_name props;
             inst_host := host props;
             inst_port := port props;
             is_connected := false |}];
       connection := connection P;
       shared := shared P |}.

Definition connected (c : Instance) : Instance :=
  {| inst_routes := inst_routes c;
     inst_authorized := inst_authorized c;
     inst_on_hold := inst_on_hold c;
     inst_local_name := inst_local_name c;
     inst_host := inst_host c;
     inst_port := inst_port c;
     is_connected := true |}.

(** [this.__verify(); this.is_connected = true] *)
Definition handleConnect (i : nat) (uuid4 : string) (P : Process) : Process :=
  let P' := on i (Client.__verify uuid4) P in
  {| instances := alter connected i (instances P');
     connection := connection P';
     shared := shared P' |}.

(** What can happen in the process.  The events of the socket go to the
    handlers of the instance that created it. *)
Inductive Happening : Type :=
| Constructed (props : ClientProps)
| Opened (uuid4 : string)
| Closed
| Received (text : frame)
| Elapsed (t : Z)
| Informs (i : nat) (p : InformPayload)
| Requests (i : nat) (p : RequestProps) (uuid4 : string)
| Routes (i : nat) (name : string) (handler : RouteHandler).

Definition happen (e : Happening) (P : Process) : Process :=
  match e with
  | Constructed props => new props P
  | Opened uuid4 =>
      match connection P with
      | Some i => handleConnect i uuid4 P
      | None => P
      end
  | Closed =>
      match connection P with
      | Some i => on i Client.handleDisconnect P
      | None => P
      end
  | Received text =>
      match connection P with
      | Some i => on i (emit_message text) P
      | None => P
      end
  | Elapsed t =>
      match connection P with
      | Some i => on i (advance t) P
      | None => P
      end
  | Informs i p => on i (Client.inform p) P
  | Requests i p uuid4 => on i (Client.request p uuid4) P
  | Routes i name handler => on i (Client.route name handler) P
  end.

Definition history (events : list Happening) (P : Process) : Process :=
  foldl (λ P e, happen e P) P events.

(** What holds of every process that [history] can reach from [start]. *)
Record sound (P : Process) : Prop := {
  sound_none : connection P = None → P = start;
  sound_first : ∀ i, connection P = Some i → i = 0%nat ∧ is_Some (instances P !! 0%nat);
  sound_wf : ∀ i c, connection P = Some i → wf (view c (shared P));
  sound_rest : ∀ j c, instances P !! j = Some c → connection P ≠ Some j →
               inst_authorized c = false ∧ inst_on_hold c = false ∧
               is_connected c = false
}.

(** The second of two clients after the events of [two_clients]. *)
Definition second_client : Instance :=
  {| inst_routes := <["ping"%string := pong]> ∅;
     inst_authorized := false;
     inst_on_hold := false;
     inst_local_name := "bot";
     inst_host := "localhost";
     inst_port := "2033";
     is_connected := false |}.

(** Two clients in one process, the second serving "ping". *)
Definition two_clients : Process :=
  history
    [Constructed dashboard; Constructed bot; Opened "c0ffee";
     Received success_frame; Routes 1 "ping" pong]
    start.
End Static.

(** * Properties *)

(** ** Reading a frame back *)

Lemma object_literal_prop (members : list (string * option json)) k v :
  NoDup members.*1 → (k, v) ∈ members → prop k (object_literal members) = v.
Proof.
  intros Hnd Hin. cbn.
  set (kept := omap (λ kv : string * option json, (fst kv,.) <$> snd kv) members).
  assert (Hkept : ∀ k' j, (k', j) ∈ kept ↔ (k', Some j) ∈ members).
  { intros k' j. unfold kept. rewrite list_elem_of_omap. split.
    - intros [[k0 [j0|]] [Hm Heq]]; simplify_eq/=. done.
    - intros Hm. exists (k', Some j). done. }
  assert (Huniq : ∀ a b, (k, a) ∈ members → (k, b) ∈ members → a = b).
  { intros a b. rewrite !list_elem_of_lookup. intros [i Hi] [j Hj].
    assert (i = j) as ->; [|congruence].
    apply (NoDup_lookup members.*1 i j k); [done| |];
      by rewrite list_lookup_fmap, ?Hi, ?Hj. }
  destruct v as [j|].
  - apply elem_of_list_to_map_1'; [|by apply Hkept].
    intros j' Hj'. apply Hkept in Hj'.
    specialize (Huniq _ _ Hin Hj'). congruence.
  - apply not_elem_of_list_to_map_1.
    rewrite list_elem_of_fmap. intros [[k' j] [-> Hj]]. apply Hkept in Hj.
    cbn in Hj. specialize (Huniq _ _ Hin Hj). congruence.
Qed.

Lemma toString_field (p : MessagePayload.t) k v :
  (k, v) ∈ MessagePayload.members p → field k (MessagePayload.toString p) = v.
Proof.
  intros Hin. unfold field, MessagePayload.toString, JSON_stringify.
  cbn [JSON_parse mbind option_bind].
  apply object_literal_prop; [|exact Hin].
  apply (bool_decide_unpack _). vm_compute. exact I.
Qed.

(** ** The monadic code, unfolded *)

Lemma null_or_not (doc : json) : doc = JNull ∨ doc ≠ JNull.
Proof. destruct doc; auto. Qed.

Lemma handleMessage_malformed w :
  Client.handleMessage Malformed w = Throw SyntaxError w.
Proof. reflexivity. Qed.

Lemma handleMessage_null w :
  Client.handleMessage (Text JNull) w = Throw TypeError w.
Proof. reflexivity. Qed.

(** [handleMessage] leaves the correlator, the clock, the console, the
    route table and the name alone. *)
Lemma handleMessage_frame ev w :
  let w' := world_of (Client.handleMessage ev w) in
  listeners w' = listeners w ∧ timers w' = timers w ∧ scopes w' = scopes w ∧
  now w' = now w ∧ console w' = console w ∧ routes w' = routes w ∧
  local_name w' = local_name w.
Proof.
  exec. destruct ev as [doc|]; cbn; [|done].
  destruct doc; cbn; try done; cases.
Qed.

(** It throws only before it queues a reaction. *)
Lemma handleMessage_throw ev w e w' :
  Client.handleMessage ev w = Throw e w' → microtasks w' = microtasks w.
Proof.
  exec. destruct ev as [doc|]; cbn; [|by intros [= _ <-]].
  destruct doc; cbn; intros H; cases.
Qed.

Lemma respond_malformed k w : Client.respond k Malformed w = Throw SyntaxError w.
Proof. reflexivity. Qed.

Lemma respond_null k w : Client.respond k (Text JNull) w = Throw TypeError w.
Proof. reflexivity. Qed.

Lemma respond_text k doc w :
  doc ≠ JNull → Client.respond k (Text doc) w = Normal tt (respond_effect doc w k).
Proof.
  intros Hdoc. unfold respond_effect, answer. exec.
  destruct doc; cbn; try done; cases.
Qed.

Lemma onTimeout_lapse k w : Client.onTimeout k w = Normal tt (lapse k w).
Proof. reflexivity. Qed.

(** ** The states of the correlator *)

Lemma schedule_perm tm q : schedule tm q ≡ₚ tm :: q.
Proof.
  induction q as [|x q IH]; cbn; [done|].
  case_bool_decide; [|done].
  rewrite IH. apply Permutation_swap.
Qed.

Lemma elem_of_schedule tm x q : x ∈ schedule tm q ↔ x = tm ∨ x ∈ q.
Proof. rewrite schedule_perm. apply elem_of_cons. Qed.

Lemma filter_listeners k ks :
  filter (λ x, x ≠ Respond k) (OnMessage :: (Respond <$> ks))
  = OnMessage :: (Respond <$> filter (λ x, x ≠ k) ks).
Proof.
  rewrite filter_cons_True by done. f_equal.
  induction ks as [|a ks IH]; [done|]. rewrite fmap_cons.
  destruct (decide (a = k)) as [->|Hne].
  - rewrite !filter_cons_False by naive_solver. done.
  - rewrite !filter_cons_True by naive_solver. by rewrite fmap_cons, IH.
Qed.

Lemma promise_settle_ne k k' v w :
  k ≠ k' → (scope_promise <$> alter (settle v) k (scopes w) !! k') = promise k' w.
Proof. intros. unfold promise. by rewrite list_lookup_alter_ne. Qed.

Lemma inv_ext popped w w' :
  listeners w' = listeners w → timers w' = timers w → scopes w' = scopes w →
  inv popped w → inv popped w'.
Proof.
  intros Hl Ht Hs [H1 H2 H3 H4]. split; unfold promise in *;
    rewrite ?Hl, ?Ht, ?Hs; done.
Qed.

Lemma finish_inv k v w : inv [] w → inv [] (finish k v w).
Proof.
  intros [[ks Hks] Hnd Harm Hpend]. rewrite app_nil_r in Hnd.
  setoid_rewrite app_nil_r in Harm.
  split; unfold promise; cbn; rewrite ?app_nil_r.
  - exists (filter (λ x, x ≠ k) ks). rewrite Hks. apply filter_listeners.
  - eapply sublist_NoDup; [exact Hnd|]. apply fmap_sublist, sublist_filter.
  - intros k'. rewrite list_elem_of_filter, list_elem_of_fmap. split.
    + intros [Hne Hin]. apply Harm in Hin.
      apply list_elem_of_fmap in Hin as [tm [-> Htm]].
      exists tm. split; [done|]. apply list_elem_of_filter.
      split; [congruence|done].
    + intros [tm [-> Htm]]. apply list_elem_of_filter in Htm as [Hne Htm].
      split; [congruence|]. apply Harm. by apply list_elem_of_fmap_2.
  - intros k'. rewrite list_elem_of_filter. intros [Hne Hin].
    rewrite list_lookup_alter_ne by congruence. by apply Hpend.
Qed.

Lemma respond_effect_inv doc w k : inv [] w → inv [] (respond_effect doc w k).
Proof. intros. unfold respond_effect. cases; by apply finish_inv. Qed.

Lemma lapse_inv k popped w : inv (k :: popped) w → inv popped (lapse k w).
Proof.
  intros [[ks Hks] Hnd Harm Hpend].
  apply NoDup_app in Hnd as (Hnd1 & Hdisj & Hnd2).
  apply NoDup_cons in Hnd2 as [Hk Hnd2].
  split; unfold promise; cbn.
  - exists (filter (λ x, x ≠ k) ks). rewrite Hks. apply filter_listeners.
  - apply NoDup_app. split_and!; [done| |done].
    intros x Hx Hp. eapply Hdisj; [done|]. by right.
  - intros k'. rewrite list_elem_of_filter, Harm, !elem_of_app, elem_of_cons.
    split; [intros [Hne [?|[->|?]]]; tauto|]. intros [Hin|Hin].
    + split; [|by left]. intros [= ->]. eapply Hdisj; [done|]. by left.
    + split; [|by right; right]. by intros [= ->].
  - intros k'. rewrite list_elem_of_filter. intros [Hne Hin].
    rewrite list_lookup_alter_ne by congruence. by apply Hpend.
Qed.

Lemma new_inv props : wf (Client.new props).
Proof.
  split; [|done]. split; cbn.
  - by exists [].
  - constructor.
  - intros k. rewrite list_elem_of_singleton, elem_of_nil. naive_solver.
  - intros k. rewrite list_elem_of_singleton. naive_solver.
Qed.

(** ** The event loop, unfolded *)

Lemma world_eta w :
  World_ (routes w) (_authorized w) (_on_hold w) (local_name w) (sent w)
    (listeners w) (now w) (timers w) (scopes w) (microtasks w) (console w)
    (calls w) = w.
Proof. by destruct w. Qed.

Lemma run_job_reply j w :
  run_job j w = Normal tt (set_sent (sent w ++ [reply (local_name w) j]) w).
Proof. by destruct j. Qed.

Lemma run_jobs_reply js w :
  run_jobs js w = Normal tt (set_sent (sent w ++ (reply (local_name w) <$> js)) w).
Proof.
  revert w. induction js as [|j js IH]; intros w; cbn.
  - unfold set_sent. by rewrite app_nil_r, world_eta.
  - unfold mbind, M_bind. rewrite run_job_reply, IH. cbn.
    unfold set_sent; cbn. by rewrite <- app_assoc.
Qed.

Lemma perform_microtasks_drained w : perform_microtasks w = Normal tt (drained w).
Proof.
  unfold perform_microtasks. exec. cbn. by rewrite run_jobs_reply.
Qed.

Lemma call_all_responds ks doc w :
  doc ≠ JNull →
  call_all (Respond <$> ks) (Text doc) w = Normal tt (foldl (respond_effect doc) w ks).
Proof.
  intros Hdoc. revert w. induction ks as [|k ks IH]; intros w; [done|].
  rewrite fmap_cons. cbn [call_all call_listener foldl].
  unfold mbind at 1, M_bind. by rewrite respond_text, IH.
Qed.

Lemma emit_message_text ks doc w :
  listeners w = OnMessage :: (Respond <$> ks) → doc ≠ JNull →
  emit_message (Text doc) w =
    match Client.handleMessage (Text doc) w with
    | Normal _ w1 => Normal tt (drained (foldl (respond_effect doc) w1 ks))
    | Throw e w1 => Throw e w1
    end.
Proof.
  intros Hks Hdoc. unfold emit_message, gets. unfold mbind at 1 2, M_bind.
  rewrite Hks. cbn [call_all call_listener]. unfold mbind at 1, M_bind.
  destruct (Client.handleMessage (Text doc) w) as [[] w1|e w1]; [|done].
  by rewrite call_all_responds, perform_microtasks_drained.
Qed.

Lemma emit_message_malformed ks w :
  listeners w = OnMessage :: ks → emit_message Malformed w = Throw SyntaxError w.
Proof. intros Hks. unfold emit_message. exec. by rewrite Hks. Qed.

Lemma emit_message_null ks w :
  listeners w = OnMessage :: ks → emit_message (Text JNull) w = Throw TypeError w.
Proof. intros Hks. unfold emit_message. exec. by rewrite Hks. Qed.

Lemma fire_lapse tms w :
  fire tms w = Normal tt (foldl (λ w tm, lapse (owner tm) w) w tms).
Proof.
  revert w. induction tms as [|tm tms IH]; intros w; [done|].
  cbn [fire foldl]. unfold mbind at 1, M_bind. by rewrite onTimeout_lapse, IH.
Qed.

Lemma advance_lapse t w :
  advance t w =
    Normal tt
      (foldl (λ w tm, lapse (owner tm) w)
         (set_now (Z.max (now w) t)
            (set_timers (filter (λ tm, ¬ due tm ≤ t) (timers w)) w))
         (filter (λ tm, due tm ≤ t) (timers w))).
Proof. unfold advance. exec. cbn. by rewrite fire_lapse. Qed.

Lemma request_cases p u w :
  Client.request p u w =
    if negb (_authorized w) then Throw NotAuthorized w
    else if _on_hold w then Throw OnHold w
    else Normal (length (scopes w)) (requested p u w).
Proof.
  exec. destruct (_authorized w); cbn; [|reflexivity].
  destruct (_on_hold w); reflexivity.
Qed.

(** ** What a transition does to one call of [request] *)

Lemma same_client_refl w : same_client w w.
Proof. by destruct w. Qed.

Lemma same_client_trans w1 w2 w3 :
  same_client w1 w2 → same_client w2 w3 → same_client w1 w3.
Proof. unfold same_client. intros H12 H23. rewrite H23, H12. done. Qed.

Lemma finish_same k v w : same_client w (finish k v w).
Proof. by destruct w. Qed.

Lemma lapse_same k w : same_client w (lapse k w).
Proof. by destruct w. Qed.

Lemma respond_effect_same doc w k : same_client w (respond_effect doc w k).
Proof.
  unfold respond_effect. cases; auto using same_client_refl, finish_same.
Qed.

Lemma foldl_same {A} (f : World → A → World) xs w :
  (∀ w x, same_client w (f w x)) → same_client w (foldl f w xs).
Proof.
  intros Hf. revert w. induction xs as [|x xs IH]; intros w; cbn.
  - apply same_client_refl.
  - eapply same_client_trans; [apply Hf|apply IH].
Qed.

Lemma foldl_preserved {A} (P : World → Prop) (f : World → A → World) xs w :
  (∀ w x, P w → P (f w x)) → P w → P (foldl f w xs).
Proof.
  intros Hf. revert w. induction xs as [|x xs IH]; intros w Hw; cbn; auto.
Qed.

(** *** A call that is over stays over *)

Lemma settle_resolved v u v' :
  settle v {| scope_uuid := u; scope_promise := Resolved v' |}
  = {| scope_uuid := u; scope_promise := Resolved v' |}.
Proof. done. Qed.

Lemma alter_settle_over k k' u v v' (l : list Scope) :
  l !! k = Some {| scope_uuid := u; scope_promise := Resolved v |} →
  alter (settle v') k' l !! k = Some {| scope_uuid := u; scope_promise := Resolved v |}.
Proof.
  intros Hk. destruct (decide (k' = k)) as [->|Hne].
  - by rewrite list_lookup_alter_eq, Hk.
  - by rewrite list_lookup_alter_ne.
Qed.

Lemma finish_over k u v k' v' w : over k u v w → over k u v (finish k' v' w).
Proof.
  intros (Hl & Ht & Hs). split_and!; cbn.
  - rewrite list_elem_of_filter. tauto.
  - rewrite list_elem_of_fmap. intros [tm [-> Htm]].
    apply list_elem_of_filter in Htm as [_ Htm].
    apply Ht. by apply list_elem_of_fmap_2.
  - by apply alter_settle_over.
Qed.

Lemma lapse_over k u v k' w : over k u v w → over k u v (lapse k' w).
Proof.
  intros (Hl & Ht & Hs). split_and!; cbn.
  - rewrite list_elem_of_filter. tauto.
  - done.
  - by apply alter_settle_over.
Qed.

Lemma respond_effect_over k u v doc w k' :
  over k u v w → over k u v (respond_effect doc w k').
Proof. intros. unfold respond_effect. cases. by apply finish_over. Qed.

(** *** A call that is waiting keeps waiting while nothing is meant for it *)

Lemma finish_waiting k u d k' v w :
  k' ≠ k → waiting k u d w → waiting k u d (finish k' v w).
Proof.
  intros Hne (Hl & Ht & Hs). split_and!; cbn.
  - apply list_elem_of_filter. split; [congruence|done].
  - apply list_elem_of_filter. split; [cbn; congruence|done].
  - by rewrite list_lookup_alter_ne.
Qed.

Lemma lapse_waiting k u d k' w :
  k' ≠ k → waiting k u d w → waiting k u d (lapse k' w).
Proof.
  intros Hne (Hl & Ht & Hs). split_and!; cbn.
  - apply list_elem_of_filter. split; [congruence|done].
  - done.
  - by rewrite list_lookup_alter_ne.
Qed.

Lemma respond_effect_waiting k u d doc w k' :
  answer u doc = None → waiting k u d w → waiting k u d (respond_effect doc w k').
Proof.
  intros Hans Hw. unfold respond_effect.
  destruct (decide (k' = k)) as [->|Hne].
  - pose proof Hw as (_ & _ & Hs). rewrite Hs. cbn. by rewrite Hans.
  - cases. by apply finish_waiting.
Qed.

(** *** The listener and the timer put an end to a waiting call *)

Lemma finish_ends k u v w :
  scopes w !! k = Some {| scope_uuid := u; scope_promise := Pending |} →
  over k u v (finish k v w).
Proof.
  intros Hs. split_and!; cbn.
  - rewrite list_elem_of_filter. tauto.
  - rewrite list_elem_of_fmap. intros [tm [-> Htm]].
    apply list_elem_of_filter in Htm. tauto.
  - by rewrite list_lookup_alter_eq, Hs.
Qed.

Lemma lapse_ends k u w :
  scopes w !! k = Some {| scope_uuid := u; scope_promise := Pending |} →
  k ∉ owner <$> timers w →
  over k u (Some JNull) (lapse k w).
Proof.
  intros Hs Ht. split_and!; cbn.
  - rewrite list_elem_of_filter. tauto.
  - done.
  - by rewrite list_lookup_alter_eq, Hs.
Qed.

Lemma respond_all_ends k u v doc ks w :
  k ∈ ks →
  scopes w !! k = Some {| scope_uuid := u; scope_promise := Pending |} →
  answer u doc = Some v →
  over k u v (foldl (respond_effect doc) w ks).
Proof.
  intros Hin Hs Hans. revert w Hs.
  induction ks as [|k' ks IH]; intros w Hs; [by apply elem_of_nil in Hin|].
  cbn. destruct (decide (k' = k)) as [->|Hne].
  - apply foldl_preserved; [intros; by apply respond_effect_over|].
    unfold respond_effect. rewrite Hs. cbn. rewrite Hans. by apply finish_ends.
  - apply elem_of_cons in Hin as [->|Hin]; [done|].
    apply IH; [done|]. unfold respond_effect. cases.
    by rewrite list_lookup_alter_ne.
Qed.

Lemma lapse_all_ends k u tms w :
  k ∈ owner <$> tms →
  scopes w !! k = Some {| scope_uuid := u; scope_promise := Pending |} →
  k ∉ owner <$> timers w →
  over k u (Some JNull) (foldl (λ w tm, lapse (owner tm) w) w tms).
Proof.
  intros Hin Hs Ht. revert w Hs Ht.
  induction tms as [|tm tms IH]; intros w Hs Ht; [by apply elem_of_nil in Hin|].
  cbn. destruct (decide (owner tm = k)) as [->|Hne].
  - apply (foldl_preserved (over k u (Some JNull))
             (λ w tm, lapse (owner tm) w));
      [intros; by apply lapse_over|].
    by apply lapse_ends.
  - rewrite fmap_cons in Hin. apply elem_of_cons in Hin as [->|Hin]; [done|].
    apply IH; [done| |done]. cbn. by rewrite list_lookup_alter_ne.
Qed.

(** ** One event *)

Lemma inv_same popped w w' :
  listeners w' = listeners w → timers w' = timers w → scopes w' = scopes w →
  microtasks w' = microtasks w → inv popped w ∧ microtasks w = [] →
  inv popped w' ∧ microtasks w' = [].
Proof. intros ??? -> [??]. eauto using inv_ext. Qed.

Lemma waiting_ext k u d w w' :
  listeners w' = listeners w → timers w' = timers w → scopes w' = scopes w →
  waiting k u d w → waiting k u d w'.
Proof. unfold waiting. by intros -> -> ->. Qed.

Lemma over_ext k u v w w' :
  listeners w' = listeners w → timers w' = timers w → scopes w' = scopes w →
  over k u v w → over k u v w'.
Proof. unfold over. by intros -> -> ->. Qed.

Lemma owner_unique (tms : list Timer) a b :
  NoDup (owner <$> tms) → a ∈ tms → b ∈ tms → owner a = owner b → a = b.
Proof.
  intros Hnd. rewrite !list_elem_of_lookup. intros [i Hi] [j Hj] Hab.
  assert (i = j) as ->; [|congruence].
  apply (NoDup_lookup (owner <$> tms) i j (owner a)); [done| |];
    rewrite list_lookup_fmap, ?Hi, ?Hj; cbn; congruence.
Qed.

Lemma lapse_all_inv tms popped w :
  inv ((owner <$> tms) ++ popped) w →
  inv popped (foldl (λ w tm, lapse (owner tm) w) w tms).
Proof.
  revert w. induction tms as [|tm tms IH]; intros w Hw; [done|].
  cbn. apply IH. by apply lapse_inv.
Qed.

Lemma handleMessage_returns doc w :
  doc ≠ JNull → is_type doc Paylods.request = false →
  ∃ w1, Client.handleMessage (Text doc) w = Normal tt w1.
Proof.
  intros Hdoc. unfold is_type. exec.
  destruct doc; cbn; try done; intros Hreq; rewrite ?Hreq; cases; eauto.
Qed.

Lemma answer_type u doc v :
  answer u doc = Some v → doc ≠ JNull ∧ is_type doc Paylods.request = false.
Proof.
  unfold answer, is_type. destruct doc; cbn; try done.
  cases; intros _; split; try done.
  all: destruct (members !! "type") as [[]|]; cbn in *; try done.
  all: repeat case_bool_decide; simplify_eq/=; done.
Qed.

Section step.
Context (w : World) (Hwf : wf w).

Lemma emit_message_wf text : wf (world_of (emit_message text w)).
Proof using Hwf.
  destruct Hwf as [Hinv Hmt]. pose proof Hinv as [[ks Hks] _ _ _].
  destruct text as [doc|]; [|by erewrite emit_message_malformed].
  destruct (null_or_not doc) as [->|Hdoc];
    [by erewrite emit_message_null|].
  rewrite (emit_message_text ks) by done.
  pose proof (handleMessage_frame (Text doc) w) as (Hl & Ht & Hs & _).
  destruct (Client.handleMessage (Text doc) w) as [[] w1|e w1] eqn:Hh;
    cbn [world_of] in *.
  - split; [|done].
    apply (inv_ext _ (foldl (respond_effect doc) w1 ks)); [done..|].
    apply foldl_preserved; [intros; by apply respond_effect_inv|].
    by apply (inv_ext _ w).
  - apply handleMessage_throw in Hh.
    split; [by apply (inv_ext _ w)|congruence].
Qed.

Lemma advance_wf t : wf (world_of (advance t w)).
Proof using Hwf.
  destruct Hwf as [[Hks Hnd Harm Hpend] Hmt]. rewrite advance_lapse. cbn.
  rewrite app_nil_r in Hnd. setoid_rewrite app_nil_r in Harm.
  assert (Hperm : (owner <$> filter (λ tm, ¬ due tm ≤ t) (timers w))
                  ++ (owner <$> filter (λ tm, due tm ≤ t) (timers w))
                  ≡ₚ owner <$> timers w).
  { rewrite <- fmap_app, Permutation_app_comm.
    by rewrite (filter_app_complement (λ tm, due tm ≤ t)). }
  split.
  - apply lapse_all_inv. rewrite app_nil_r. split; cbn; try done.
    + by rewrite Hperm.
    + intros k. by rewrite Hperm.
  - pose proof (foldl_same (λ w tm, lapse (owner tm) w)
      (filter (λ tm, due tm ≤ t) (timers w))
      (set_now (Z.max (now w) t)
         (set_timers (filter (λ tm, ¬ due tm ≤ t) (timers w)) w))
      (λ w tm, lapse_same (owner tm) w)) as Hsame.
    rewrite Hsame. done.
Qed.

Lemma request_wf p u : wf (world_of (Client.request p u w)).
Proof using Hwf.
  rewrite request_cases. destruct (_authorized w); [|done].
  destruct (_on_hold w); [done|]. cbn.
  destruct Hwf as [[[ks Hks] Hnd Harm Hpend] Hmt].
  rewrite app_nil_r in Hnd. setoid_rewrite app_nil_r in Harm.
  assert (Hfresh : length (scopes w) ∉ owner <$> timers w).
  { intros Hin. apply Harm, Hpend in Hin. unfold promise in Hin.
    destruct (scopes w !! length (scopes w)) eqn:Hlk; [|done].
    apply lookup_lt_Some in Hlk. lia. }
  split; [|done]. split; unfold promise; cbn.
  - exists (ks ++ [length (scopes w)]). by rewrite Hks, fmap_app.
  - rewrite app_nil_r, schedule_perm, fmap_cons. by constructor.
  - intros k. rewrite app_nil_r, schedule_perm, fmap_cons, elem_of_app,
      list_elem_of_singleton, elem_of_cons, Harm. cbn.
    split; [intros [?|[= ->]]|intros [->|?]]; auto.
  - intros k. rewrite elem_of_app, list_elem_of_singleton. intros [Hin|[= ->]].
    + apply Hpend in Hin. unfold promise in Hin.
      destruct (scopes w !! k) eqn:Hlk; [|done].
      by rewrite (lookup_app_l_Some _ _ _ _ Hlk).
    + by rewrite list_lookup_middle.
Qed.

Lemma step_wf e : wf (world_of (step e w)).
Proof using Hwf.
  destruct e; cbn [step].
  - by apply (inv_same _ w).
  - by apply (inv_same _ w).
  - apply emit_message_wf.
  - apply advance_wf.
  - unfold Client.inform. exec.
    destruct (_authorized w); cbn; [|done].
    destruct (_on_hold w); cbn; [done|]. by apply (inv_same _ w).
  - unfold mbind, M_bind. pose proof (request_wf p uuid4) as H.
    by destruct (Client.request p uuid4 w).
  - by apply (inv_same _ w).
Qed.
End step.

Lemma foldl_preserved_in {A} (P : World → Prop) (f : World → A → World) xs w :
  (∀ w x, x ∈ xs → P w → P (f w x)) → P w → P (foldl f w xs).
Proof.
  revert w. induction xs as [|x xs IH]; intros w Hf Hw; cbn; [done|].
  apply IH.
  - intros w' y Hy. apply Hf. by right.
  - apply Hf; [by left|done].
Qed.

Section call.
Context (w : World) (Hwf : wf w) (k : nat) (u : string).

(** A call that is over stays over, whatever happens. *)
Lemma step_over v e : over k u v w → over k u v (world_of (step e w)).
Proof using Hwf.
  intros Hov. pose proof Hwf as [[[ks Hks] _ _ _] _].
  destruct e; cbn [step]; try by apply (over_ext _ _ _ w).
  - destruct text as [doc|]; [|by erewrite emit_message_malformed].
    destruct (null_or_not doc) as [->|Hdoc]; [by erewrite emit_message_null|].
    rewrite (emit_message_text ks) by done.
    pose proof (handleMessage_frame (Text doc) w) as (Hl & Ht & Hs & _).
    destruct (Client.handleMessage (Text doc) w) as [[] w1|e w1];
      cbn [world_of] in *.
    + apply (over_ext _ _ _ (foldl (respond_effect doc) w1 ks)); [done..|].
      apply foldl_preserved; [intros; by apply respond_effect_over|].
      by apply (over_ext _ _ _ w).
    + by apply (over_ext _ _ _ w).
  - rewrite advance_lapse. cbn.
    apply (foldl_preserved (over k u v) (λ w tm, lapse (owner tm) w));
      [intros; by apply lapse_over|].
    destruct Hov as (Hl & Ht & Hs). split_and!; cbn; try done.
    rewrite list_elem_of_fmap. intros [tm [-> Htm]].
    apply list_elem_of_filter in Htm as [_ Htm].
    apply Ht. by apply list_elem_of_fmap_2.
  - unfold Client.inform. exec.
    destruct (_authorized w); cbn; [|done].
    destruct (_on_hold w); cbn; [done|]. by apply (over_ext _ _ _ w).
  - unfold mbind, M_bind. rewrite request_cases.
    destruct (_authorized w); cbn; [|done].
    destruct (_on_hold w); cbn; [done|].
    destruct Hov as (Hl & Ht & Hs).
    pose proof (lookup_lt_Some _ _ _ Hs) as Hlt.
    split_and!; cbn.
    + rewrite elem_of_app, list_elem_of_singleton. intros [?|[= ->]]; [done|lia].
    + rewrite schedule_perm, fmap_cons, elem_of_cons. cbn.
      intros [->|?]; [lia|done].
    + by apply lookup_app_l_Some.
Qed.

(** A waiting call keeps waiting while no message answers it and its
    time has not come. *)
Lemma step_waiting d e :
  waiting k u d w →
  (∀ text, e = Message text → answers u text = None) →
  (∀ t, e = Advance t → t < d) →
  waiting k u d (world_of (step e w)).
Proof using Hwf.
  intros Hwait Hmsg Hadv. pose proof Hwf as [[[ks Hks] Hnd _ _] _].
  rewrite app_nil_r in Hnd.
  destruct e; cbn [step]; try by apply (waiting_ext _ _ _ w).
  - specialize (Hmsg _ eq_refl).
    destruct text as [doc|]; [|by erewrite emit_message_malformed].
    destruct (null_or_not doc) as [->|Hdoc]; [by erewrite emit_message_null|].
    rewrite (emit_message_text ks) by done.
    pose proof (handleMessage_frame (Text doc) w) as (Hl & Ht & Hs & _).
    destruct (Client.handleMessage (Text doc) w) as [[] w1|e w1];
      cbn [world_of] in *.
    + apply (waiting_ext _ _ _ (foldl (respond_effect doc) w1 ks)); [done..|].
      apply foldl_preserved; [intros; by apply respond_effect_waiting|].
      by apply (waiting_ext _ _ _ w).
    + by apply (waiting_ext _ _ _ w).
  - specialize (Hadv _ eq_refl). rewrite advance_lapse. cbn.
    pose proof Hwait as (Hl & Ht & Hs).
    apply (foldl_preserved_in (waiting k u d) (λ w tm, lapse (owner tm) w)).
    + intros w' tm Htm Hw'. apply lapse_waiting; [|done].
      apply list_elem_of_filter in Htm as [Hdue Htm]. intros Hk.
      assert (tm = {| owner := k; due := d |}) as ->
        by (by apply (owner_unique (timers w))).
      cbn in Hdue. lia.
    + split_and!; cbn; try done.
      apply list_elem_of_filter. split; [cbn; lia|done].
  - unfold Client.inform. exec.
    destruct (_authorized w); cbn; [|done].
    destruct (_on_hold w); cbn; [done|]. by apply (waiting_ext _ _ _ w).
  - unfold mbind, M_bind. rewrite request_cases.
    destruct (_authorized w); cbn; [|done].
    destruct (_on_hold w); cbn; [done|].
    destruct Hwait as (Hl & Ht & Hs). split_and!; cbn.
    + apply elem_of_app. by left.
    + apply elem_of_schedule. by right.
    + by apply lookup_app_l_Some.
Qed.

(** Its timer ends it with [null]. *)
Lemma advance_ends d t :
  waiting k u d w → d ≤ t → over k u (Some JNull) (world_of (advance t w)).
Proof using Hwf.
  intros (Hl & Ht & Hs) Hdue. pose proof Hwf as [[_ Hnd _ _] _].
  rewrite app_nil_r in Hnd. rewrite advance_lapse. cbn.
  apply lapse_all_ends; cbn.
  - apply (list_elem_of_fmap_2' _ _ {| owner := k; due := d |}); [|done].
    apply list_elem_of_filter. by split.
  - done.
  - rewrite list_elem_of_fmap. intros [tm [Hk Htm]].
    apply list_elem_of_filter in Htm as [Hnot Htm].
    assert (tm = {| owner := k; due := d |}) as ->
      by (by apply (owner_unique (timers w))).
    by apply Hnot.
Qed.

(** A message that answers it ends it with the answer. *)
Lemma emit_message_ends d text v :
  waiting k u d w → answers u text = Some v →
  over k u v (world_of (emit_message text w)).
Proof using Hwf.
  intros (Hl & Ht & Hs) Hans. pose proof Hwf as [[[ks Hks] _ _ _] _].
  destruct text as [doc|]; [|done]. cbn in Hans.
  pose proof (answer_type _ _ _ Hans) as [Hdoc Hreq].
  rewrite (emit_message_text ks) by done.
  pose proof (handleMessage_frame (Text doc) w) as (Hl1 & Ht1 & Hs1 & _).
  destruct (handleMessage_returns doc w Hdoc Hreq) as [w1 Hw1].
  rewrite Hw1 in *. cbn [world_of] in *.
  apply (over_ext _ _ _ (foldl (respond_effect doc) w1 ks)); [done..|].
  apply respond_all_ends; [|by rewrite Hs1|done].
  rewrite Hks in Hl. apply elem_of_cons in Hl as [?|Hl]; [done|].
  apply list_elem_of_fmap in Hl as [k' [[= ->] ?]]. done.
Qed.
End call.

(** ** Traces *)

Lemma run_cons e events w : run (e :: events) w = run events (world_of (step e w)).
Proof. done. Qed.


Lemma run_wf events w : wf w → wf (run events w).
Proof.
  revert w. induction events as [|e events IH]; intros w Hw; [done|].
  rewrite run_cons. by apply IH, step_wf.
Qed.

Lemma run_over k u v events w : wf w → over k u v w → over k u v (run events w).
Proof.
  revert w. induction events as [|e events IH]; intros w Hw Hov; [done|].
  rewrite run_cons. apply IH; [by apply step_wf|by apply step_over].
Qed.


(** ** The flags *)

Lemma handleMessage_flags text w :
  let w1 := world_of (Client.handleMessage text w) in
  _authorized w1 = is_success text || _authorized w ∧
  _on_hold w1 =
    (if is_success text then false else is_already_authorized text || _on_hold w).
Proof.
  unfold is_success, is_already_authorized, is_type. exec.
  destruct text as [doc|]; cbn; [|done].
  destruct doc; cbn; try done.
  destruct (members !! "type") as [[]|]; cbn; try done.
  repeat case_bool_decide; simplify_eq/=; try done; cases.
Qed.

Lemma emit_message_flags text w :
  wf w →
  let w' := world_of (emit_message text w) in
  _authorized w' = is_success text || _authorized w ∧
  _on_hold w' =
    (if is_success text then false else is_already_authorized text || _on_hold w).
Proof.
  intros [[[ks Hks] _ _ _] _].
  pose proof (handleMessage_flags text w) as Hflags.
  destruct text as [doc|]; [|by erewrite emit_message_malformed].
  destruct (null_or_not doc) as [->|Hdoc]; [by erewrite emit_message_null|].
  rewrite (emit_message_text ks) by done.
  destruct (Client.handleMessage (Text doc) w) as [[] w1|e w1];
    cbn [world_of] in *; [|done].
  unfold drained. cbn.
  by rewrite (foldl_same (respond_effect doc) ks w1 (respond_effect_same doc)).
Qed.

(** Nothing but a message touches the flags. *)
Lemma step_flags e w :
  message_of e = None →
  _authorized (world_of (step e w)) = _authorized w ∧
  _on_hold (world_of (step e w)) = _on_hold w.
Proof.
  destruct e; cbn [step message_of]; try done; intros _.
  - rewrite advance_lapse. cbn.
    by rewrite (foldl_same (λ w tm, lapse (owner tm) w) _ _
                  (λ w tm, lapse_same (owner tm) w)).
  - unfold Client.inform. exec.
    destruct (_authorized w) eqn:?; cbn; [|done]. by destruct (_on_hold w) eqn:?.
  - unfold mbind, M_bind. rewrite request_cases.
    destruct (_authorized w) eqn:?; cbn; [|done]. by destruct (_on_hold w) eqn:?.
Qed.

Lemma inform_cases ip w :
  ∃ text,
    Client.inform ip w =
      if negb (_authorized w) then Throw NotAuthorized w
      else if _on_hold w then Throw OnHold w
      else Normal tt (set_sent (sent w ++ [text]) w).
Proof.
  eexists. unfold Client.inform. exec.
  destruct (_authorized w); cbn; [|reflexivity].
  destruct (_on_hold w); reflexivity.
Qed.

(** * The claims *)

(** ** Guards of [request] and [inform] *)

(** C3, as the code has it.  [request] and [inform] test [_authorized]
    first and [_on_hold] second, and throw at the first test that fails:
    while [_authorized] is false they throw the not-authorized error,
    whatever [_on_hold] is; while [_authorized] is true and [_on_hold] is
    true they throw the on-hold error.  The state at the throw is the
    state of the call: no envelope was built, nothing was sent.  So with
    [_on_hold] true every call fails without sending, with the one error
    or the other. *)
Theorem guards_block_sending (w : World) (p : RequestProps) (u : string)
    (ip : InformPayload) :
  (_authorized w = false →
     Client.request p u w = Throw NotAuthorized w ∧
     Client.inform ip w = Throw NotAuthorized w) ∧
  (_authorized w = true → _on_hold w = true →
     Client.request p u w = Throw OnHold w ∧
     Client.inform ip w = Throw OnHold w) ∧
  (_on_hold w = true →
     Client.request p u w
     = Throw (if _authorized w then OnHold else NotAuthorized) w ∧
     Client.inform ip w
     = Throw (if _authorized w then OnHold else NotAuthorized) w).
Proof.
  destruct (inform_cases ip w) as [text Hinform].
  rewrite Hinform, request_cases.
  split_and!.
  - by intros ->.
  - by intros -> ->.
  - intros ->. by destruct (_authorized w).
Qed.

Lemma guards_block_sending_witness :
  let w := Client.new dashboard in
  let held := world_of (emit_message already_authorized_frame (authorized dashboard)) in
  (Client.request get_roles "u1" w = Throw NotAuthorized w ∧
   Client.inform sync w = Throw NotAuthorized w) ∧
  (Client.request get_roles "u1" held = Throw OnHold held ∧
   Client.inform sync held = Throw OnHold held) ∧
  (Client.request get_roles "u1" refused = Throw NotAuthorized refused ∧
   Client.inform sync refused = Throw NotAuthorized refused).
Proof.
  split; [|split].
  - apply (proj1 (guards_block_sending (Client.new dashboard) get_roles "u1" sync)).
    reflexivity.
  - apply (proj1 (proj2 (guards_block_sending
             (world_of (emit_message already_authorized_frame (authorized dashboard)))
             get_roles "u1" sync))); reflexivity.
  - apply (proj2 (proj2 (guards_block_sending refused get_roles "u1" sync))).
    reflexivity.
Defined.

(** C3 fails as stated: a client whose name the relay refused before it
    was ever authorized has [_on_hold] true, and its calls fail with the
    not-authorized error of the first guard, not with the on-hold error. *)
Lemma first_guard_decides :
  _authorized refused = false ∧
  _on_hold refused = true ∧
  Client.request get_roles "u1" refused = Throw NotAuthorized refused ∧
  Client.inform sync refused = Throw NotAuthorized refused ∧
  NotAuthorized ≠ OnHold.
Proof. split_and!; [vm_compute; reflexivity..|discriminate]. Qed.

(** ** The close event *)

(** C7, as the code has it.  A close event only logs: the state is the
    state before it with one more line on the console.  The two flags keep
    their values, nothing is sent (no new verification, no reconnection),
    and [request] and [inform] pass or fail exactly as before the close. *)
Theorem close_only_logs (w : World) :
  let w' := world_of (step Close w) in
  throws (step Close w) = None ∧
  w' = set_console (console w ++ ["Disconnected"%string]) w ∧
  _authorized w' = _authorized w ∧
  _on_hold w' = _on_hold w ∧
  sent w' = sent w ∧
  (∀ p u, throws (Client.request p u w') = throws (Client.request p u w)) ∧
  (∀ ip, throws (Client.inform ip w') = throws (Client.inform ip w)).
Proof.
  cbn. split_and!; try done.
  - intros p u. rewrite !request_cases. cbn.
    destruct (_authorized w); [|done]. by destruct (_on_hold w).
  - intros ip. unfold Client.inform. exec. cbn.
    destruct (_authorized w); cbn; [|done]. by destruct (_on_hold w).
Qed.

(** C7 fails as stated: an authorized client is still authorized after
    the close event, and its next [request] passes the guards and hands a
    frame to the socket. *)
Lemma close_keeps_authorized :
  let w := world_of (step Close (authorized dashboard)) in
  _authorized w = true ∧
  throws (Client.request get_roles "u1" w) = None ∧
  length (sent (world_of (Client.request get_roles "u1" w)))
  = S (length (sent w)).
Proof. vm_compute. done. Qed.

(** ** Messages that are no envelopes *)

Lemma drained_idle w : microtasks w = [] → drained w = w.
Proof.
  intros Hmt. unfold drained, set_sent, set_microtasks. cbn.
  rewrite Hmt. cbn. rewrite app_nil_r. rewrite <- Hmt. apply world_eta.
Qed.

Lemma respond_all_idle doc ks w :
  (∀ u, answer u doc = None) → foldl (respond_effect doc) w ks = w.
Proof.
  intros Hans. induction ks as [|k ks IH]; [done|]. cbn.
  unfold respond_effect at 2. destruct (scopes w !! k); [|done].
  by rewrite Hans.
Qed.

Lemma answer_needs_type u doc :
  is_type doc Paylods.response = false → is_type doc Paylods.error = false →
  answer u doc = None.
Proof. unfold answer. intros -> ->. by case_match. Qed.

(** C8, as the code has it.  There is no validation of an inbound message
    and no malformed-envelope error.  Text that is not JSON makes the
    handler throw the parser's [SyntaxError], and the payload [null] makes
    it throw a [TypeError]; a payload whose [type] is none of the eight
    kinds is ignored, the handler returns normally.  In all three cases no
    state changes and nothing is sent. *)
Theorem invalid_message (w : World) (text : frame) :
  wf w →
  (JSON_parse text = None → emit_message text w = Throw SyntaxError w) ∧
  (JSON_parse text = Some JNull → emit_message text w = Throw TypeError w) ∧
  (∀ doc, JSON_parse text = Some doc → doc ≠ JNull →
     (∀ p, is_type doc p = false) →
     emit_message text w = Normal tt w).
Proof.
  intros [[[ks Hks] _ _ _] Hmt]. split_and!.
  - destruct text; [done|]. intros _. by eapply emit_message_malformed.
  - destruct text; [|done]. intros [= ->]. by eapply emit_message_null.
  - intros doc Hparse Hdoc Htype. destruct text as [doc'|]; [|done].
    injection Hparse as ->. rewrite (emit_message_text ks) by done.
    assert (Hh : Client.handleMessage (Text doc) w = Normal tt w).
    { pose proof (Htype Paylods.success) as H0.
      pose proof (Htype Paylods.error) as H4.
      pose proof (Htype Paylods.request) as H2.
      unfold is_type in *. exec. destruct doc; cbn in *; try done.
      by rewrite H0, H4, H2. }
    rewrite Hh, respond_all_idle, drained_idle; [done..|].
    intros u. by apply answer_needs_type.
Qed.

Lemma invalid_message_witness :
  let w := authorized dashboard in
  emit_message Malformed w = Throw SyntaxError w ∧
  emit_message (Text JNull) w = Throw TypeError w ∧
  emit_message (Text (JObj {[ "type" := JNum 99 ]})) w = Normal tt w.
Proof.
  assert (Hwf : wf (authorized dashboard)) by apply run_wf, new_inv.
  split_and!.
  - apply (invalid_message (authorized dashboard) Malformed Hwf). reflexivity.
  - apply (invalid_message (authorized dashboard) (Text JNull) Hwf). reflexivity.
  - destruct (invalid_message (authorized dashboard)
                (Text (JObj {[ "type" := JNum 99 ]})) Hwf) as (_ & _ & Hignored).
    apply (Hignored (JObj {[ "type" := JNum 99 ]})); [reflexivity|done|].
    intros []; reflexivity.
Defined.

(** C8 fails as stated: text that is not JSON makes the inbound handler
    throw. *)
Lemma malformed_message_throws :
  throws (emit_message Malformed (authorized dashboard)) = Some SyntaxError ∧
  throws (Client.handleMessage Malformed (authorized dashboard)) = Some SyntaxError.
Proof. split; reflexivity. Qed.

(** ** Requests for a route that is not registered *)

Lemma is_request_only doc u :
  is_type doc Paylods.request = true → answer u doc = None.
Proof.
  intros Hreq. apply answer_needs_type; unfold is_type in *;
    destruct (prop "type" doc) as [[]|]; cbn in *; try done;
    repeat case_bool_decide; simplify_eq/=; done.
Qed.

Lemma handleMessage_unknown_route doc w :
  is_type doc Paylods.request = true →
  routes_get (prop "route" doc) (routes w) = None →
  Client.handleMessage (Text doc) w
  = Normal tt (set_sent (sent w ++ [route_not_found (local_name w) doc]) w).
Proof.
  intros Hreq Hroute. unfold is_type in Hreq. exec.
  destruct doc; cbn in *; try done.
  destruct (members !! "type") as [[]|]; cbn in *; try done.
  case_bool_decide; simplify_eq/=. by rewrite Hroute.
Qed.

(** C6.  An inbound [Request] envelope whose route is not in the table
    is answered with exactly one frame, an [Error] envelope whose [data]
    and [traceback] are "Route not found", whose [destination] is the [id]
    of the request and whose [uuid] is its [uuid].  Nothing else changes;
    in particular no handler is called. *)
Theorem unknown_route_error (w : World) (doc : json) :
  wf w →
  is_type doc Paylods.request = true →
  routes_get (prop "route" doc) (routes w) = None →
  ∃ reply,
    emit_message (Text doc) w = Normal tt (set_sent (sent w ++ [reply]) w) ∧
    calls (set_sent (sent w ++ [reply]) w) = calls w ∧
    field "type" reply = Some (JNum (Paylods.code Paylods.error)) ∧
    field "data" reply = Some (JStr "Route not found") ∧
    field "traceback" reply = Some (JStr "Route not found") ∧
    field "destination" reply = prop "id" doc ∧
    field "uuid" reply = prop "uuid" doc ∧
    field "id" reply = Some (JStr (local_name w)).
Proof.
  intros [[[ks Hks] _ _ _] Hmt] Hreq Hroute.
  assert (Hdoc : doc ≠ JNull) by (by intros ->).
  exists (route_not_found (local_name w) doc). split; [|split; [done|]].
  - rewrite (emit_message_text ks) by done.
    rewrite handleMessage_unknown_route by done.
    rewrite respond_all_idle, drained_idle; [done..|].
    intros u. by apply is_request_only.
  - split_and!; apply toString_field; cbn; set_solver.
Qed.

Lemma unknown_route_error_witness :
  ∃ reply,
    emit_message (Text unknown_request) (authorized bot)
    = Normal tt (set_sent (sent (authorized bot) ++ [reply]) (authorized bot)) ∧
    calls (set_sent (sent (authorized bot) ++ [reply]) (authorized bot))
    = calls (authorized bot) ∧
    field "type" reply = Some (JNum 4) ∧
    field "data" reply = Some (JStr "Route not found") ∧
    field "traceback" reply = Some (JStr "Route not found") ∧
    field "destination" reply = Some (JStr "dashboard") ∧
    field "uuid" reply = Some (JStr "u1") ∧
    field "id" reply = Some (JStr "bot").
Proof.
  apply (unknown_route_error (authorized bot) unknown_request).
  - apply run_wf, new_inv.
  - reflexivity.
  - reflexivity.
Defined.

(** The scenario between two clients: the [Error] frame of [bot] carries
    the identifier of the request, and ends the call of [dashboard] with
    [null] at once. *)
Example unknown_route_scenario :
  let request := last_sent asking_unknown in
  let reply := last_sent (world_of (emit_message request (authorized bot))) in
  field "uuid" request = Some (JStr "aaaa") ∧
  field "type" reply = Some (JNum 4) ∧
  field "data" reply = Some (JStr "Route not found") ∧
  field "uuid" reply = Some (JStr "aaaa") ∧
  field "destination" reply = Some (JStr "dashboard") ∧
  promise 0 asking_unknown = Some Pending ∧
  promise 0 (run [Message reply] asking_unknown) = Some (Resolved (Some JNull)).
Proof. vm_compute. done. Qed.

(** ** Correlation *)

Lemma answers_other_uuid u text :
  field "uuid" text ≠ Some (JStr u) → answers u text = None.
Proof.
  unfold answers, answer, field. destruct text as [doc|]; [|done]. cbn.
  intros Hne. destruct (prop "uuid" doc) as [[]|]; cbn; try done.
  case_bool_decide; [congruence|done].
Qed.

Lemma answers_response u text :
  field "uuid" text = Some (JStr u) →
  field "type" text = Some (JNum (Paylods.code Paylods.response)) →
  answers u text = Some (field "data" text).
Proof.
  unfold answers, answer, is_type, field. destruct text as [doc|]; [|done]. cbn.
  intros -> ->. cbn. by rewrite bool_decide_eq_true_2.
Qed.

Lemma answers_error u text :
  field "uuid" text = Some (JStr u) →
  field "type" text = Some (JNum (Paylods.code Paylods.error)) →
  answers u text = Some (Some JNull).
Proof.
  unfold answers, answer, is_type, field. destruct text as [doc|]; [|done]. cbn.
  intros -> ->. cbn. by rewrite bool_decide_eq_true_2.
Qed.

Lemma answers_returns u text v w :
  wf w → answers u text = Some v → throws (emit_message text w) = None.
Proof.
  intros [[[ks Hks] _ _ _] _] Hans. destruct text as [doc|]; [|done].
  apply answer_type in Hans as [Hdoc Hreq].
  rewrite (emit_message_text ks) by done.
  by destruct (handleMessage_returns doc w Hdoc Hreq) as [w1 ->].
Qed.

(** C4.  With two calls of [request] waiting under different
    identifiers, a [Response] envelope that carries the identifier of the
    first ends the first with the envelope's [data] and leaves the second
    waiting: its listener and its timer stay and its promise is pending.
    And whatever the message, a waiting call whose identifier is not the
    [uuid] of the message is left waiting. *)
Theorem response_resolves_its_request_only (w : World) (a b : nat)
    (ua ub : string) (da db : Z) (text : frame) :
  wf w →
  waiting a ua da w → waiting b ub db w → ua ≠ ub →
  field "uuid" text = Some (JStr ua) →
  field "type" text = Some (JNum (Paylods.code Paylods.response)) →
  let w' := world_of (emit_message text w) in
  throws (emit_message text w) = None ∧
  over a ua (field "data" text) w' ∧
  waiting b ub db w' ∧
  (∀ k u d other,
     waiting k u d w → field "uuid" other ≠ Some (JStr u) →
     waiting k u d (world_of (emit_message other w))).
Proof.
  intros Hwf Ha Hb Hne Huuid Htype w'.
  pose proof (answers_response ua text Huuid Htype) as Hans.
  split_and!.
  - by eapply answers_returns.
  - by eapply emit_message_ends.
  - apply (step_waiting w Hwf b ub db (Message text)); [done| |done].
    intros ? [= <-]. apply answers_other_uuid. rewrite Huuid. congruence.
  - intros k u d other Hk Hother.
    apply (step_waiting w Hwf k u d (Message other)); [done| |done].
    intros ? [= <-]. by apply answers_other_uuid.
Qed.

Lemma two_requests_waiting :
  wf two_requests ∧
  waiting 0 "aaaa" 60000 two_requests ∧
  waiting 1 "bbbb" 60000 two_requests.
Proof.
  split; [apply run_wf, run_wf, new_inv|].
  split; (split_and!; [by_evaluation|by_evaluation|reflexivity]).
Qed.

Lemma response_resolves_its_request_only_witness :
  let text := response_frame "aaaa" (JObj {[ "roles" := JArr [] ]}) in
  let w' := world_of (emit_message text two_requests) in
  throws (emit_message text two_requests) = None ∧
  over 0 "aaaa" (Some (JObj {[ "roles" := JArr [] ]})) w' ∧
  waiting 1 "bbbb" 60000 w' ∧
  (∀ k u d other,
     waiting k u d two_requests → field "uuid" other ≠ Some (JStr u) →
     waiting k u d (world_of (emit_message other two_requests))).
Proof.
  destruct two_requests_waiting as (Hwf & Ha & Hb).
  apply (response_resolves_its_request_only two_requests 0 1 "aaaa" "bbbb"
           60000 60000 (response_frame "aaaa" (JObj {[ "roles" := JArr [] ]}))
           Hwf Ha Hb).
  - discriminate.
  - reflexivity.
  - reflexivity.
Defined.

(** ** Timeouts *)

Lemma request_returns p u w k w1 :
  Client.request p u w = Normal k w1 →
  k = length (scopes w) ∧ w1 = requested p u w.
Proof.
  rewrite request_cases. destruct (_authorized w); [|done].
  destruct (_on_hold w); [done|]. cbn. by intros [= <- <-].
Qed.


Lemma request_waiting p u w k w1 :
  Client.request p u w = Normal k w1 →
  waiting k u (now w + _idleTimeout (Client.timeout_of p * 1000)) w1
  ∧ now w1 = now w.
Proof.
  intros [-> ->]%request_returns. split; [|done]. split_and!; cbn.
  - apply elem_of_app. right. by apply list_elem_of_singleton.
  - apply elem_of_schedule. by left.
  - by rewrite list_lookup_middle.
Qed.



(** At any moment a call is waiting or over. *)
Lemma run_waiting_or_over k u d events w :
  wf w → waiting k u d w →
  waiting k u d (run events w) ∨ ∃ v, over k u v (run events w).
Proof.
  revert w. induction events as [|e events IH]; intros w Hwf Hwait; [by left|].
  rewrite run_cons.
  assert (Hstep : waiting k u d (world_of (step e w))
                  ∨ ∃ v, over k u v (world_of (step e w))).
  { destruct e; try (left; by apply step_waiting).
    - destruct (answers u text) as [v|] eqn:Hans.
      + right. exists v. by eapply emit_message_ends.
      + left. apply step_waiting; [done..| |done]. by intros ? [= <-].
    - destruct (decide (d ≤ t)) as [Hd|Hd].
      + right. eexists. by eapply advance_ends.
      + left. apply step_waiting; [done..|]. intros ? [= <-]. lia. }
  destruct Hstep as [Hw|[v Hv]].
  - apply IH; [by apply step_wf|done].
  - right. exists v. apply run_over; [by apply step_wf|done].
Qed.




(** The scenario on the clock: nothing at 59999 ms, [null] at 60000 ms,
    and a response that comes later changes nothing. *)
Example timeout_scenario :
  let w1 := requested ping "aaaa" (authorized dashboard) in
  let late := response_frame "aaaa" (JObj {[ "pong" := JBool true ]}) in
  promise 0 (run [Advance 59999] w1) = Some Pending ∧
  promise 0 (run [Advance 59999; Advance 60000] w1) = Some (Resolved (Some JNull)) ∧
  promise 0 (run [Advance 60000; Message late] w1) = Some (Resolved (Some JNull)) ∧
  promise 0 (run [Message late; Advance 60000] w1)
  = Some (Resolved (Some (JObj {[ "pong" := JBool true ]}))).
Proof. vm_compute. done. Qed.

(** ** On hold *)

Lemma run_on_hold events w :
  wf w → no_success events → _on_hold w = true →
  _on_hold (run events w) = true ∧ wf (run events w).
Proof.
  revert w. induction events as [|e events IH]; intros w Hwf Hno Hhold; [done|].
  rewrite run_cons. apply IH; [by apply step_wf| |].
  - intros text Hin. apply Hno. by right.
  - destruct (message_of e) as [text|] eqn:He.
    + destruct e; try done. injection He as ->. cbn [step].
      pose proof (emit_message_flags text w Hwf) as [_ ->].
      rewrite (Hno text) by (by left). rewrite Hhold. by rewrite orb_true_r.
    + pose proof (step_flags e w He) as [_ ->]. done.
Qed.

(** C9, as the code has it.  An [Error] envelope whose [data] is the
    string "Already authorized." sets [_on_hold] and leaves [_authorized]
    as it was.  From then on, until a [Success] envelope arrives, every
    [request] and every [inform] fails before anything is sent: with the
    not-authorized error while the client has not been authorized, which
    the first guard checks, and with the on-hold error otherwise.  A
    [Success] envelope sets [_authorized] and clears [_on_hold]. *)
Theorem on_hold_until_success (w : World) (text : frame) :
  wf w →
  is_already_authorized text = true →
  let w1 := world_of (emit_message text w) in
  _on_hold w1 = true ∧
  _authorized w1 = _authorized w ∧
  (∀ events, no_success events →
     let w' := run events w1 in
     _on_hold w' = true ∧
     (∀ p u, Client.request p u w'
             = Throw (if _authorized w' then OnHold else NotAuthorized) w') ∧
     (∀ ip, Client.inform ip w'
            = Throw (if _authorized w' then OnHold else NotAuthorized) w')) ∧
  (∀ events fresh, is_success fresh = true →
     let w' := world_of (emit_message fresh (run events w1)) in
     _authorized w' = true ∧ _on_hold w' = false).
Proof.
  intros Hwf Htext w1.
  assert (Hnot : is_success text = false).
  { unfold is_success, is_already_authorized, is_type in *.
    destruct text as [doc|]; [|done]. cbn in *.
    destruct (prop "type" doc) as [[]|]; cbn in *; try done.
    repeat case_bool_decide; simplify_eq/=; done. }
  pose proof (emit_message_flags text w Hwf) as [Hauth Hhold].
  rewrite Hnot, Htext in *. cbn in Hauth, Hhold.
  assert (Hwf1 : wf w1) by (by apply emit_message_wf).
  split_and!; try done.
  - intros events Hno w'.
    destruct (run_on_hold events w1 Hwf1 Hno Hhold) as [Hh _]. fold w' in Hh.
    split_and!; [done|..].
    + intros p u. rewrite request_cases, Hh. by destruct (_authorized w').
    + intros ip. destruct (inform_cases ip w') as [? ->]. rewrite Hh.
      by destruct (_authorized w').
  - intros events fresh Hfresh w'.
    pose proof (emit_message_flags fresh (run events w1) (run_wf _ _ Hwf1))
      as [Ha Hh].
    fold w' in Ha, Hh. by rewrite Hfresh in *.
Qed.

Lemma on_hold_until_success_witness :
  let w1 := world_of (emit_message already_authorized_frame (Client.new dashboard)) in
  _on_hold w1 = true ∧
  _authorized w1 = false ∧
  (∀ events, no_success events →
     let w' := run events w1 in
     _on_hold w' = true ∧
     (∀ p u, Client.request p u w'
             = Throw (if _authorized w' then OnHold else NotAuthorized) w') ∧
     (∀ ip, Client.inform ip w'
            = Throw (if _authorized w' then OnHold else NotAuthorized) w')) ∧
  (∀ events fresh, is_success fresh = true →
     let w' := world_of (emit_message fresh (run events w1)) in
     _authorized w' = true ∧ _on_hold w' = false).
Proof.
  apply (on_hold_until_success (Client.new dashboard) already_authorized_frame).
  - apply new_inv.
  - reflexivity.
Defined.

(** C9 fails as stated: a client that is refused its name before it was
    ever authorized is on hold, and its calls fail with the
    not-authorized error, not with the on-hold error. *)
Lemma on_hold_fails_not_authorized :
  let w1 := world_of (emit_message already_authorized_frame (Client.new dashboard)) in
  _on_hold w1 = true ∧
  throws (Client.request get_roles "u1" w1) = Some NotAuthorized ∧
  throws (Client.inform sync w1) = Some NotAuthorized ∧
  NotAuthorized ≠ OnHold.
Proof. split_and!; [reflexivity..|discriminate]. Qed.

(** ** Requests for a registered route *)

Lemma handleMessage_known_route doc name handler p w :
  is_type doc Paylods.request = true →
  routes_get (prop "route" doc) (routes w) = Some (name, handler) →
  handler (prop "data" doc) = Returns p →
  Client.handleMessage (Text doc) w
  = Normal tt
      (set_microtasks
         (microtasks w ++
          match p with
          | Fulfils res => [Then res]
          | Rejects reason => [Catch reason]
          | NeverSettles => []
          end)
         (set_calls (calls w ++ [(name, prop "data" doc)]) w)).
Proof.
  intros Hreq Hroute Hret. unfold is_type in Hreq. exec.
  destruct doc; cbn in *; try done.
  destruct (members !! "type") as [[]|]; cbn in *; try done.
  case_bool_decide; simplify_eq/=. rewrite Hroute. cbn. rewrite Hret.
  destruct p; cbn; try done.
  unfold set_microtasks, set_calls. cbn. by rewrite app_nil_r.
Qed.

(** The dispatcher calls the handler once and sends what the reaction to
    its promise sends: one frame when the promise settles. *)
Lemma request_dispatched doc name handler p w :
  wf w →
  is_type doc Paylods.request = true →
  routes_get (prop "route" doc) (routes w) = Some (name, handler) →
  handler (prop "data" doc) = Returns p →
  emit_message (Text doc) w = Normal tt (dispatched name (prop "data" doc) p w).
Proof.
  intros [[[ks Hks] _ _ _] Hmt] Hreq Hroute Hret.
  assert (Hdoc : doc ≠ JNull) by (by intros ->).
  rewrite (emit_message_text ks) by done.
  rewrite (handleMessage_known_route doc name handler p) by done.
  rewrite respond_all_idle by (intros; by apply is_request_only).
  unfold drained, dispatched. destruct w; cbn in *; subst.
  by destruct p.
Qed.

(** Neither reaction gives the frame a [uuid] or a [destination], so the
    frame answers no call of [request]. *)
Lemma reply_fields name j :
  field "id" (reply name j) = Some (JStr name) ∧
  field "uuid" (reply name j) = None ∧
  field "destination" (reply name j) = None ∧
  field "type" (reply name j)
  = Some (JNum (Paylods.code match j with
                             | Then _ => Paylods.response
                             | Catch _ => Paylods.error
                             end)) ∧
  field "data" (reply name j)
  = Some match j with
         | Then res => or_else res (JObj ∅)
         | Catch (ErrorObject message) => or_else (Some (JStr message)) (JObj ∅)
         | Catch NotAnError => JStr "Internal Server Error"
         end.
Proof.
  destruct j as [res|[message|]];
    split_and!; apply toString_field; cbn; set_solver.
Qed.

Lemma reply_answers_nothing name j u : answers u (reply name j) = None.
Proof.
  apply answers_other_uuid.
  by destruct (reply_fields name j) as (_ & -> & _).
Qed.

Lemma reply_leaves_waiting name j k u d w :
  wf w → waiting k u d w →
  waiting k u d (world_of (emit_message (reply name j) w)).
Proof.
  intros Hwf Hw. apply (step_waiting w Hwf k u d (Message (reply name j)));
    [done| |done].
  intros ? [= <-]. apply reply_answers_nothing.
Qed.

(** C1 fails on the code.  In the ping scenario the dispatcher of [bot]
    answers the request with one [Response] frame that carries the value
    of the handler, and the frame has no [uuid].  Delivered to
    [dashboard], it leaves the call waiting; the call ends with [null]
    when its 60 seconds are over. *)
Theorem ping_response_has_no_uuid :
  sent asking = sent (authorized dashboard) ++ [ping_frame] ∧
  field "uuid" ping_frame = Some (JStr "aaaa") ∧
  emit_message ping_frame (serving pong)
  = Normal tt (dispatched "ping" (Some (JObj ∅))
                 (Fulfils (Some (JObj {[ "pong" := JBool true ]})))
                 (serving pong)) ∧
  sent (world_of (emit_message ping_frame (serving pong)))
  = sent (serving pong) ++ [answer_frame pong] ∧
  field "type" (answer_frame pong) = Some (JNum 3) ∧
  field "data" (answer_frame pong) = Some (JObj {[ "pong" := JBool true ]}) ∧
  field "uuid" (answer_frame pong) = None ∧
  waiting 0 "aaaa" 60000 (run [Message (answer_frame pong)] asking) ∧
  promise 0 (run [Message (answer_frame pong); Advance 60000] asking)
  = Some (Resolved (Some JNull)).
Proof.
  split_and!; try (vm_compute; reflexivity).
  split_and!; [by_evaluation|by_evaluation|vm_compute; reflexivity].
Qed.

(** X18.  On every request for a registered route whose handler fulfils,
    the handler is called once and the one frame sent is a [Response]
    with the handler's value as [data] (the empty object for a falsy
    value) and without [uuid]: it answers no call of [request]. *)
Lemma response_never_has_uuid doc name handler res w :
  wf w →
  is_type doc Paylods.request = true →
  routes_get (prop "route" doc) (routes w) = Some (name, handler) →
  handler (prop "data" doc) = Returns (Fulfils res) →
  ∃ text,
    sent (world_of (emit_message (Text doc) w)) = sent w ++ [text] ∧
    calls (world_of (emit_message (Text doc) w))
    = calls w ++ [(name, prop "data" doc)] ∧
    field "type" text = Some (JNum (Paylods.code Paylods.response)) ∧
    field "data" text = Some (or_else res (JObj ∅)) ∧
    field "uuid" text = None ∧
    ∀ u, answers u text = None.
Proof.
  intros Hwf Hreq Hroute Hret.
  rewrite (request_dispatched doc name handler (Fulfils res)) by done.
  exists (reply (local_name w) (Then res)).
  destruct (reply_fields (local_name w) (Then res)) as (_ & ? & _ & ? & ?).
  split_and!; first [done|intros u; apply reply_answers_nothing].
Qed.

(** ** Handlers that reject *)

(** C10 fails on the code at the empty message.  A handler that rejects
    with [new Error()] is answered with one [Error] frame whose [data] is
    the empty object, not the message. *)
Theorem empty_error_message_is_lost :
  failing None = Returns (Rejects (ErrorObject EmptyString)) ∧
  sent (world_of (emit_message ping_frame (serving failing)))
  = sent (serving failing) ++ [answer_frame failing] ∧
  field "type" (answer_frame failing) = Some (JNum 4) ∧
  field "data" (answer_frame failing) = Some (JObj ∅) ∧
  field "data" (answer_frame failing) ≠ Some (JStr EmptyString).
Proof.
  split_and!; try (vm_compute; reflexivity).
  vm_compute. discriminate.
Qed.

(** X17.  Apart from the empty message, a rejection is answered as C10
    says: one [Error] frame with the message of an [Error] instance or with
    "Internal Server Error", without [uuid] and without [destination]; it
    answers no call, so a call that waits for it can only time out. *)
Lemma rejection_reply doc name handler reason w :
  wf w →
  is_type doc Paylods.request = true →
  routes_get (prop "route" doc) (routes w) = Some (name, handler) →
  handler (prop "data" doc) = Returns (Rejects reason) →
  reason ≠ ErrorObject EmptyString →
  ∃ text,
    sent (world_of (emit_message (Text doc) w)) = sent w ++ [text] ∧
    field "type" text = Some (JNum (Paylods.code Paylods.error)) ∧
    field "data" text
    = Some (JStr match reason with
                 | ErrorObject message => message
                 | NotAnError => "Internal Server Error"
                 end) ∧
    field "uuid" text = None ∧
    field "destination" text = None ∧
    (∀ u, answers u text = None) ∧
    (∀ requester k u d, wf requester → waiting k u d requester →
       waiting k u d (world_of (emit_message text requester))).
Proof.
  intros Hwf Hreq Hroute Hret Hreason.
  rewrite (request_dispatched doc name handler (Rejects reason)) by done.
  exists (reply (local_name w) (Catch reason)).
  destruct (reply_fields (local_name w) (Catch reason)) as (_ & ? & ? & ? & Hdata).
  split_and!; try done.
  - rewrite Hdata. destruct reason as [[|c message]|]; done.
  - intros requester k u d ??. by apply reply_leaves_waiting.
Qed.

(** ** The round trip of an envelope *)

(** Every field but [data] comes back as it was given; [data] comes back
    as [data || {}]. *)
Lemma encode_fields (m : MessagePayload.msg) :
  field "id" (encode m) = MessagePayload.id m ∧
  field "type" (encode m) = Some (JNum (Paylods.code (MessagePayload.type m))) ∧
  field "route" (encode m) = MessagePayload.route m ∧
  field "traceback" (encode m) = MessagePayload.traceback m ∧
  field "uuid" (encode m) = MessagePayload.uuid m ∧
  field "destination" (encode m) = MessagePayload.destination m ∧
  field "pseudo_object" (encode m) = MessagePayload.pseudo_object m ∧
  field "data" (encode m) = Some (or_else (MessagePayload.data m) (JObj ∅)).
Proof. split_and!; apply toString_field; cbn; set_solver. Qed.

Lemma or_else_typed v :
  optional is_record_or_string v → v ≠ Some (JStr EmptyString) →
  or_else v (JObj ∅) = default (JObj ∅) v.
Proof. destruct v as [[| | |[|]| |]|]; cbn; done. Qed.

(** C2 fails on the code at the empty string.  An envelope whose [data]
    is the empty string is well typed, and it comes back with the empty
    object as its [data]. *)
Theorem empty_data_is_replaced :
  well_typed empty_data ∧
  MessagePayload.data empty_data = Some (JStr EmptyString) ∧
  field "data" (encode empty_data) = Some (JObj ∅) ∧
  field "data" (encode empty_data) ≠ MessagePayload.data empty_data.
Proof. split_and!; [by cbn|reflexivity|reflexivity|discriminate]. Qed.

(** X16.  Apart from the empty string, the round trip is as C2 says:
    every field of a well-typed envelope comes back as it was given, and
    an absent [data] comes back as the empty object. *)
Lemma roundtrip (m : MessagePayload.msg) :
  well_typed m → MessagePayload.data m ≠ Some (JStr EmptyString) →
  field "id" (encode m) = MessagePayload.id m ∧
  field "type" (encode m) = Some (JNum (Paylods.code (MessagePayload.type m))) ∧
  field "route" (encode m) = MessagePayload.route m ∧
  field "traceback" (encode m) = MessagePayload.traceback m ∧
  field "uuid" (encode m) = MessagePayload.uuid m ∧
  field "destination" (encode m) = MessagePayload.destination m ∧
  field "pseudo_object" (encode m) = MessagePayload.pseudo_object m ∧
  field "data" (encode m) = Some (default (JObj ∅) (MessagePayload.data m)).
Proof.
  intros (_ & _ & _ & Hdata & _) Hne.
  destruct (encode_fields m) as (? & ? & ? & ? & ? & ? & ? & ->).
  split_and!; try done. by rewrite or_else_typed.
Qed.

(** * Further properties of the engine *)

(** ** What a trace of events never undoes *)

Lemma foldl_respond_same doc ks w :
  same_client w (foldl (respond_effect doc) w ks).
Proof. apply foldl_same, respond_effect_same. Qed.

Lemma foldl_lapse_same tms w :
  same_client w (foldl (λ w tm, lapse (owner tm) w) w tms).
Proof. apply (foldl_same (λ w tm, lapse (owner tm) w)). intros. apply lapse_same. Qed.

Lemma step_authorized e w :
  wf w → _authorized w = true → _authorized (world_of (step e w)) = true.
Proof.
  intros Hwf Hauth. destruct (message_of e) as [text|] eqn:He.
  - destruct e; try done. injection He as ->. cbn [step].
    pose proof (emit_message_flags text w Hwf) as [-> _].
    rewrite Hauth. apply orb_true_r.
  - by pose proof (step_flags e w He) as [-> _].
Qed.

(** X2.  Nothing takes the authorization back: once [_authorized] is
    true it is true after any events, close events and refusals of the
    relay included. *)
Theorem authorized_for_good (w : World) (events : list Event) :
  wf w → _authorized w = true → _authorized (run events w) = true.
Proof.
  revert w. induction events as [|e events IH]; intros w Hwf Hauth; [done|].
  rewrite run_cons. apply IH; [by apply step_wf|by apply step_authorized].
Qed.

Lemma authorized_for_good_witness :
  _authorized (run [Close; Message already_authorized_frame; Message Malformed;
                    Advance 1000] (authorized dashboard)) = true.
Proof.
  apply (authorized_for_good (authorized dashboard)).
  - apply run_wf, new_inv.
  - reflexivity.
Defined.

(** *** The route table and the name *)

Lemma step_routes e w :
  wf w →
  local_name (world_of (step e w)) = local_name w ∧
  routes (world_of (step e w)) =
    match e with
    | Route name handler => <[name := handler]> (routes w)
    | _ => routes w
    end.
Proof.
  intros [[[ks Hks] _ _ _] _]. destruct e; cbn [step]; try done.
  - destruct text as [doc|]; [|by erewrite emit_message_malformed].
    destruct (null_or_not doc) as [->|Hdoc]; [by erewrite emit_message_null|].
    rewrite (emit_message_text ks) by done.
    pose proof (handleMessage_frame (Text doc) w) as (_ & _ & _ & _ & _ & Hr & Hn).
    destruct (Client.handleMessage (Text doc) w) as [[] w1|e w1];
      cbn [world_of] in *; [|done].
    unfold drained. cbn. by rewrite (foldl_respond_same doc ks w1).
  - rewrite advance_lapse. cbn. by rewrite (foldl_lapse_same _ _).
  - destruct (inform_cases p w) as [text ->].
    destruct (_authorized w); cbn; [|done]. by destruct (_on_hold w).
  - unfold mbind, M_bind. rewrite request_cases.
    destruct (_authorized w); cbn; [|done]. by destruct (_on_hold w).
Qed.

(** X3.  The name of the client never changes, and an entry of the route
    table changes by a registration under its name only: there is no way
    to remove a route, and no message, call or timer touches the table. *)
Theorem routes_persist (w : World) (name : string) (events : list Event) :
  wf w → not_registered name events →
  local_name (run events w) = local_name w ∧
  routes (run events w) !! name = routes w !! name.
Proof.
  revert w. induction events as [|e events IH]; intros w Hwf Hno; [done|].
  rewrite run_cons.
  destruct (IH (world_of (step e w))) as [-> ->]; [by apply step_wf| |].
  { intros h Hin. apply (Hno h). by right. }
  destruct (step_routes e w Hwf) as [-> ->]. split; [done|].
  destruct e; try done. apply lookup_insert_ne. intros ->.
  apply (Hno handler). by left.
Qed.

Lemma routes_persist_witness :
  let w := serving pong in
  let events := [Message ping_frame; Close; Route "other" failing;
                 Message Malformed; Advance 5] in
  local_name (run events w) = local_name w ∧
  routes (run events w) !! "ping" = routes w !! "ping".
Proof.
  apply (routes_persist (serving pong) "ping").
  - apply run_wf, run_wf, new_inv.
  - intros h Hin. rewrite !elem_of_cons, elem_of_nil in Hin.
    destruct Hin as [?|[?|[?|[?|[?|?]]]]]; done.
Defined.

(** *** No listener and no timer is left behind *)

Lemma respond_effect_length doc w k :
  length (scopes (respond_effect doc w k)) = length (scopes w).
Proof. unfold respond_effect. cases. cbn. apply length_alter. Qed.

Lemma lapse_length k w : length (scopes (lapse k w)) = length (scopes w).
Proof. cbn. apply length_alter. Qed.

Lemma step_scopes_length e w :
  wf w →
  length (scopes (world_of (step e w))) = length (scopes w) ∨
  ∃ p u, e = Request p u ∧
         Client.request p u w = Normal (length (scopes w)) (requested p u w).
Proof.
  intros [[[ks Hks] _ _ _] _]. destruct e; cbn [step]; try (by left).
  - left. destruct text as [doc|]; [|by erewrite emit_message_malformed].
    destruct (null_or_not doc) as [->|Hdoc]; [by erewrite emit_message_null|].
    rewrite (emit_message_text ks) by done.
    pose proof (handleMessage_frame (Text doc) w) as (_ & _ & Hs & _).
    destruct (Client.handleMessage (Text doc) w) as [[] w1|e w1];
      cbn [world_of] in *; [|by rewrite Hs].
    unfold drained. cbn. rewrite <- Hs.
    apply (foldl_preserved (λ w', length (scopes w') = length (scopes w1)));
      [|done].
    intros w' k <-. apply respond_effect_length.
  - left. rewrite advance_lapse. cbn.
    apply (foldl_preserved (λ w', length (scopes w') = length (scopes w))
             (λ w tm, lapse (owner tm) w)); [|done].
    intros w' tm <-. apply lapse_length.
  - left. destruct (inform_cases p w) as [text ->].
    destruct (_authorized w); cbn; [|done]. by destruct (_on_hold w).
  - unfold mbind, M_bind. rewrite request_cases.
    destruct (_authorized w) eqn:Ha; cbn; [|by left].
    destruct (_on_hold w) eqn:Hh; cbn; [by left|]. right.
    exists p, uuid4. split; [done|]. by rewrite request_cases, Ha, Hh.
Qed.

Lemma step_waiting_or_over k u d e w :
  wf w → waiting k u d w →
  waiting k u d (world_of (step e w)) ∨ ∃ v, over k u v (world_of (step e w)).
Proof. intros Hwf Hw. by apply (run_waiting_or_over k u d [e] w). Qed.

Lemma step_tidy e w : wf w → tidy w → tidy (world_of (step e w)).
Proof.
  intros Hwf Htidy k env Hk.
  assert (Huuid : ∀ u s, scopes (world_of (step e w)) !! k
                         = Some {| scope_uuid := u; scope_promise := s |} →
                         scope_uuid env = u).
  { intros u s Hk'. rewrite Hk in Hk'. by injection Hk' as ->. }
  destruct (step_scopes_length e w Hwf) as [Hlen|(p & u & -> & Hreq)].
  - assert (is_Some (scopes w !! k)) as [env0 Hk0].
    { apply lookup_lt_is_Some. rewrite <- Hlen. by eapply lookup_lt_Some. }
    destruct (Htidy k env0 Hk0) as [[d Hw]|[v Hv]].
    + destruct (step_waiting_or_over k _ d e w Hwf Hw) as [Hw'|[v Hv']].
      * left. exists d. pose proof Hw' as (_ & _ & Hs).
        by rewrite (Huuid _ _ Hs).
      * right. exists v. pose proof Hv' as (_ & _ & Hs).
        by rewrite (Huuid _ _ Hs).
    + pose proof (step_over w Hwf k _ v e Hv) as Hv'.
      right. exists v. pose proof Hv' as (_ & _ & Hs). by rewrite (Huuid _ _ Hs).
  - cbn [step] in *. unfold mbind, M_bind in *. rewrite Hreq in *.
    cbn [world_of] in *.
    destruct (decide (k = length (scopes w))) as [->|Hne].
    + apply request_waiting in Hreq as [Hw _]. left. eexists.
      pose proof Hw as (_ & _ & Hs). by rewrite (Huuid _ _ Hs).
    + assert (is_Some (scopes w !! k)) as [env0 Hk0].
      { apply lookup_lt_is_Some. apply lookup_lt_Some in Hk. cbn in Hk.
        rewrite length_app in Hk. cbn in Hk. lia. }
      assert (Hstep : world_of (step (Request p u) w) = requested p u w).
      { cbn [step]. unfold mbind, M_bind. by rewrite Hreq. }
      destruct (Htidy k env0 Hk0) as [[d Hw]|[v Hv]].
      * destruct (step_waiting_or_over k _ d (Request p u) w Hwf Hw)
          as [Hw'|[v Hv']]; rewrite Hstep in *.
        -- left. exists d. pose proof Hw' as (_ & _ & Hs).
           by rewrite (Huuid _ _ Hs).
        -- right. exists v. pose proof Hv' as (_ & _ & Hs).
           by rewrite (Huuid _ _ Hs).
      * pose proof (step_over w Hwf k _ v (Request p u) Hv) as Hv'.
        rewrite Hstep in Hv'.
        right. exists v. pose proof Hv' as (_ & _ & Hs).
        by rewrite (Huuid _ _ Hs).
Qed.

Lemma run_tidy events w : wf w → tidy w → tidy (run events w).
Proof.
  revert w. induction events as [|e events IH]; intros w Hwf Htidy; [done|].
  rewrite run_cons. apply IH; [by apply step_wf|by apply step_tidy].
Qed.

(** X4.  In every state that a new client can reach, each call of
    [request] made so far is in one of two conditions: its listener is
    registered, its timer is set and its promise is pending; or its
    promise is resolved and neither its listener nor its timer is left.
    No listener or timer outlives its call, and no pending call is
    without them. *)
Theorem no_listener_or_timer_left (props : ClientProps) (events : list Event) :
  tidy (run events (Client.new props)).
Proof.
  apply run_tidy; [apply new_inv|]. intros k env Hk. by cbn in Hk.
Qed.

(** ** What goes on the wire *)

Ltac in_members :=
  solve [apply toString_field; cbn;
         repeat first [apply list_elem_of_here | apply list_elem_of_further]].

Lemma or_else_truthy v d : truthy (Some v) = true → or_else (Some v) d = v.
Proof. cbn -[truthy]. by intros ->. Qed.



(** X6.  Past its guards, [inform] hands exactly one frame to the socket
    and does nothing else: an [Information] envelope whose [route] is the
    list of the destinations, a single name being wrapped in a list, with
    the data and with no [id], no [uuid] and no [destination].  It creates
    no promise, no listener and no timer. *)
Theorem inform_goes_out (w : World) (ip : InformPayload) :
  _authorized w = true → _on_hold w = false →
  truthy (Some (inf_data ip)) = true →
  ∃ text,
    Client.inform ip w = Normal tt (set_sent (sent w ++ [text]) w) ∧
    field "type" text = Some (JNum (Paylods.code Paylods.information)) ∧
    field "route" text = Some (JArr (JStr <$> names_of (inf_destinations ip))) ∧
    field "data" text = Some (inf_data ip) ∧
    field "id" text = None ∧
    field "uuid" text = None ∧
    field "destination" text = None.
Proof.
  intros Ha Hh Hdata. eexists. split.
  - unfold Client.inform. exec. rewrite Ha. cbn. rewrite Hh. reflexivity.
  - split_and!; try in_members.
    rewrite <- (or_else_truthy (inf_data ip) (JObj ∅) Hdata) at 2.
    in_members.
Qed.

Lemma inform_goes_out_witness :
  ∃ text,
    Client.inform
      {| inf_route := "sync"; inf_destinations := One "bot";
         inf_data := JObj {[ "sync" := JBool true ]} |}
      (authorized dashboard)
    = Normal tt (set_sent (sent (authorized dashboard) ++ [text])
                   (authorized dashboard)) ∧
    field "type" text = Some (JNum 6) ∧
    field "route" text = Some (JArr [JStr "bot"]) ∧
    field "data" text = Some (JObj {[ "sync" := JBool true ]}) ∧
    field "id" text = None ∧
    field "uuid" text = None ∧
    field "destination" text = None.
Proof.
  apply (inform_goes_out (authorized dashboard)
           {| inf_route := "sync"; inf_destinations := One "bot";
              inf_data := JObj {[ "sync" := JBool true ]} |});
    reflexivity.
Defined.

(** *** Messages that are no requests *)

Lemma handleMessage_not_request doc w :
  is_type doc Paylods.request = false →
  let w1 := world_of (Client.handleMessage (Text doc) w) in
  sent w1 = sent w ∧ calls w1 = calls w ∧ microtasks w1 = microtasks w.
Proof.
  unfold is_type. exec. destruct doc; cbn; try done.
  intros ->. cases.
Qed.

Lemma emit_message_not_request text w :
  wf w →
  (∀ doc, JSON_parse text = Some doc → is_type doc Paylods.request = false) →
  sent (world_of (emit_message text w)) = sent w ∧
  calls (world_of (emit_message text w)) = calls w.
Proof.
  intros [[[ks Hks] _ _ _] Hmt] Hnot.
  destruct text as [doc|]; [|by erewrite emit_message_malformed].
  destruct (null_or_not doc) as [->|Hdoc]; [by erewrite emit_message_null|].
  rewrite (emit_message_text ks) by done.
  pose proof (handleMessage_not_request doc w (Hnot doc eq_refl))
    as (Hs & Hc & Hm).
  destruct (Client.handleMessage (Text doc) w) as [[] w1|e w1];
    cbn [world_of] in *; [|done].
  unfold drained. cbn. rewrite (foldl_respond_same doc ks w1). cbn.
  rewrite Hm, Hmt, Hs, Hc. cbn. by rewrite app_nil_r.
Qed.

Lemma is_success_not_request text doc :
  is_success text = true → JSON_parse text = Some doc →
  is_type doc Paylods.request = false.
Proof.
  unfold is_success, is_type. intros Hs Hp. rewrite Hp in Hs.
  destruct (prop "type" doc) as [[]|]; cbn in *; try done.
  repeat case_bool_decide; simplify_eq/=; done.
Qed.

(** X7.  The handshake.  On the open event a new client sends one frame,
    the [Verification] envelope with its name as [id] and a fresh [uuid],
    which has no [data] member; it is not authorized by that.  The
    [Success] envelope that follows authorizes it without anything more
    being sent, and from then on [request] passes its guards. *)
Theorem handshake (props : ClientProps) (u : string) (text : frame) :
  is_success text = true →
  let opened := run [Open u] (Client.new props) in
  let w := run [Open u; Message text] (Client.new props) in
  ∃ verification,
    sent opened = [verification] ∧
    field "id" verification = Some (JStr (props_local_name props)) ∧
    field "uuid" verification = Some (JStr u) ∧
    field "type" verification = Some (JNum (Paylods.code Paylods.verification)) ∧
    field "data" verification = None ∧
    _authorized opened = false ∧
    sent w = [verification] ∧
    _authorized w = true ∧ _on_hold w = false ∧
    (∀ p v, throws (Client.request p v w) = None).
Proof.
  intros Hs opened w.
  assert (Hwf : wf opened) by apply run_wf, new_inv.
  eexists. split; [reflexivity|].
  assert (Hw : w = world_of (emit_message text opened)) by done.
  pose proof (emit_message_flags text opened Hwf) as [Ha Hh].
  pose proof (emit_message_not_request text opened Hwf
                (λ doc, is_success_not_request text doc Hs)) as [Hsent _].
  rewrite <- Hw in Ha, Hh, Hsent. rewrite Hs in Ha, Hh. cbn [orb] in Ha.
  split_and!; try done.
  intros p v. by rewrite request_cases, Ha, Hh.
Qed.

Lemma handshake_witness :
  let opened := run [Open "c0ffee"] (Client.new dashboard) in
  let w := run [Open "c0ffee"; Message success_frame] (Client.new dashboard) in
  ∃ verification,
    sent opened = [verification] ∧
    field "id" verification = Some (JStr "dashboard") ∧
    field "uuid" verification = Some (JStr "c0ffee") ∧
    field "type" verification = Some (JNum 1) ∧
    field "data" verification = None ∧
    _authorized opened = false ∧
    sent w = [verification] ∧
    _authorized w = true ∧ _on_hold w = false ∧
    (∀ p v, throws (Client.request p v w) = None).
Proof. apply (handshake dashboard "c0ffee" success_frame). reflexivity. Defined.

(** X8.  Whatever goes over the wire that is neither a [Success]
    envelope nor the refusal "Already authorized." leaves both flags as
    they are: requests, responses, other errors, pings, text that is not
    JSON. *)
Theorem other_messages_keep_flags (w : World) (text : frame) :
  wf w →
  is_success text = false → is_already_authorized text = false →
  _authorized (world_of (emit_message text w)) = _authorized w ∧
  _on_hold (world_of (emit_message text w)) = _on_hold w.
Proof.
  intros Hwf Hs Ha. pose proof (emit_message_flags text w Hwf) as [-> ->].
  by rewrite Hs, Ha.
Qed.

Lemma other_messages_keep_flags_witness :
  _authorized (world_of (emit_message (error_frame "aaaa") two_requests))
  = _authorized two_requests ∧
  _on_hold (world_of (emit_message (error_frame "aaaa") two_requests))
  = _on_hold two_requests.
Proof.
  apply (other_messages_keep_flags two_requests (error_frame "aaaa"));
    [apply run_wf, run_wf, new_inv|reflexivity..].
Defined.

(** ** Registering and dispatching *)

Lemma route_wf name handler w : wf w → wf (world_of (Client.route name handler w)).
Proof. intros Hwf. by apply (inv_same _ w). Qed.

(** X9.  [route] never throws and sends nothing, whatever the state of
    the connection; it replaces the handler registered under the name and
    leaves the other names alone.  From then on a request for the name is
    dispatched to the new handler: the handler is called once, with the
    [data] of the request, and the reaction to its promise sends the
    reply. *)
Theorem route_then_dispatch (w : World) (name : string) (handler : RouteHandler)
    (doc : json) (p : Promise) :
  wf w →
  is_type doc Paylods.request = true →
  prop "route" doc = Some (JStr name) →
  handler (prop "data" doc) = Returns p →
  let w1 := world_of (Client.route name handler w) in
  Client.route name handler w = Normal tt w1 ∧
  sent w1 = sent w ∧
  routes w1 !! name = Some handler ∧
  (∀ other, other ≠ name → routes w1 !! other = routes w !! other) ∧
  emit_message (Text doc) w1
  = Normal tt (dispatched name (prop "data" doc) p w1).
Proof.
  intros Hwf Hreq Hroute Hret w1. split_and!; try done.
  - apply lookup_insert_eq.
  - intros other Hne. by apply lookup_insert_ne.
  - apply (request_dispatched doc name handler); [by apply route_wf|done| |done].
    rewrite Hroute. cbn. by rewrite lookup_insert_eq.
Qed.

Lemma route_then_dispatch_witness :
  let w := serving failing in
  let w1 := world_of (Client.route "ping" pong w) in
  Client.route "ping" pong w = Normal tt w1 ∧
  sent w1 = sent w ∧
  routes w1 !! "ping" = Some pong ∧
  (∀ other, other ≠ "ping"%string → routes w1 !! other = routes w !! other) ∧
  emit_message (Text (request_for "ping")) w1
  = Normal tt
      (dispatched "ping" (Some (JObj {[ "guild_id" := JNum 123 ]}))
         (Fulfils (Some (JObj {[ "pong" := JBool true ]}))) w1).
Proof.
  apply (route_then_dispatch (serving failing) "ping" pong (request_for "ping")
           (Fulfils (Some (JObj {[ "pong" := JBool true ]})))).
  - apply run_wf, run_wf, new_inv.
  - reflexivity.
  - reflexivity.
  - reflexivity.
Defined.

Lemma handleMessage_handler_throws doc name handler reason w :
  is_type doc Paylods.request = true →
  routes_get (prop "route" doc) (routes w) = Some (name, handler) →
  handler (prop "data" doc) = ThrowsAtOnce reason →
  Client.handleMessage (Text doc) w
  = Throw (Thrown reason) (set_calls (calls w ++ [(name, prop "data" doc)]) w).
Proof.
  intros Hreq Hroute Hret. unfold is_type in Hreq. exec.
  destruct doc; cbn in *; try done.
  destruct (members !! "type") as [[]|]; cbn in *; try done.
  case_bool_decide; simplify_eq/=. rewrite Hroute. cbn. by rewrite Hret.
Qed.

(** X10.  The dispatcher replies only when the promise of the handler
    settles.  If the handler throws before it returns a promise, the
    exception leaves [handleMessage]: the handler was called, nothing is
    sent, and the requester gets no [Error] envelope.  If the promise
    never settles, the handler was called and nothing is sent. *)
Theorem no_reply_without_settlement (w : World) (doc : json) (name : string)
    (handler : RouteHandler) :
  wf w →
  is_type doc Paylods.request = true →
  routes_get (prop "route" doc) (routes w) = Some (name, handler) →
  (∀ reason, handler (prop "data" doc) = ThrowsAtOnce reason →
     emit_message (Text doc) w
     = Throw (Thrown reason)
         (set_calls (calls w ++ [(name, prop "data" doc)]) w)) ∧
  (handler (prop "data" doc) = Returns NeverSettles →
     emit_message (Text doc) w
     = Normal tt (set_calls (calls w ++ [(name, prop "data" doc)]) w)).
Proof.
  intros Hwf Hreq Hroute. split.
  - intros reason Hret. destruct Hwf as [[[ks Hks] _ _ _] _].
    assert (Hdoc : doc ≠ JNull) by (by intros ->).
    rewrite (emit_message_text ks) by done.
    by rewrite (handleMessage_handler_throws doc name handler reason).
  - intros Hret.
    rewrite (request_dispatched doc name handler NeverSettles) by done.
    unfold dispatched, set_sent. cbn. rewrite app_nil_r.
    by destruct w.
Qed.

Lemma no_reply_without_settlement_witness :
  (emit_message (Text (request_for "ping")) (serving throwing)
   = Throw (Thrown (ErrorObject "boom"))
       (set_calls
          (calls (serving throwing)
           ++ [("ping"%string, Some (JObj {[ "guild_id" := JNum 123 ]}))])
          (serving throwing))) ∧
  (emit_message (Text (request_for "ping")) (serving silent)
   = Normal tt
       (set_calls
          (calls (serving silent)
           ++ [("ping"%string, Some (JObj {[ "guild_id" := JNum 123 ]}))])
          (serving silent))).
Proof.
  split.
  - apply (no_reply_without_settlement (serving throwing) (request_for "ping")
             "ping" throwing);
      [apply run_wf, run_wf, new_inv|reflexivity..].
  - apply (no_reply_without_settlement (serving silent) (request_for "ping")
             "ping" silent);
      [apply run_wf, run_wf, new_inv|reflexivity..].
Defined.

(** ** More on the listener of a request *)

(** X11.  An [Error] envelope with the identifier of a waiting call ends
    the call with [null], whatever the envelope says: the text of the
    error does not reach the caller. *)
Theorem error_ends_with_null (w : World) (k : nat) (u : string) (d : Z)
    (text : frame) :
  wf w → waiting k u d w →
  field "uuid" text = Some (JStr u) →
  field "type" text = Some (JNum (Paylods.code Paylods.error)) →
  throws (emit_message text w) = None ∧
  over k u (Some JNull) (world_of (emit_message text w)).
Proof.
  intros Hwf Hw Hu Ht. pose proof (answers_error u text Hu Ht) as Hans.
  split; [by eapply answers_returns|by eapply emit_message_ends].
Qed.

Lemma error_ends_with_null_witness :
  throws (emit_message (error_frame "aaaa") two_requests) = None ∧
  over 0 "aaaa" (Some JNull)
    (world_of (emit_message (error_frame "aaaa") two_requests)).
Proof.
  destruct two_requests_waiting as (Hwf & Ha & _).
  apply (error_ends_with_null two_requests 0 "aaaa" 60000 (error_frame "aaaa")
           Hwf Ha); reflexivity.
Defined.

Lemma answers_other_kind u text :
  field "type" text ≠ Some (JNum (Paylods.code Paylods.response)) →
  field "type" text ≠ Some (JNum (Paylods.code Paylods.error)) →
  answers u text = None.
Proof.
  unfold answers, field. destruct text as [doc|]; [|done]. cbn.
  intros H3 H4. apply answer_needs_type; unfold is_type;
    destruct (prop "type" doc) as [[]|]; cbn; try done;
    case_bool_decide; congruence.
Qed.

(** X12.  An envelope that is neither a [Response] nor an [Error] leaves
    every waiting call waiting, also when it carries the identifier of
    the call. *)
Theorem other_kinds_leave_waiting (w : World) (k : nat) (u : string) (d : Z)
    (text : frame) :
  wf w → waiting k u d w →
  field "type" text ≠ Some (JNum (Paylods.code Paylods.response)) →
  field "type" text ≠ Some (JNum (Paylods.code Paylods.error)) →
  waiting k u d (world_of (emit_message text w)).
Proof.
  intros Hwf Hw H3 H4.
  apply (step_waiting w Hwf k u d (Message text)); [done| |done].
  intros ? [= <-]. by apply answers_other_kind.
Qed.

Lemma other_kinds_leave_waiting_witness :
  waiting 0 "aaaa" 60000
    (world_of (emit_message (ping_envelope "aaaa") two_requests)).
Proof.
  destruct two_requests_waiting as (Hwf & Ha & _).
  apply (other_kinds_leave_waiting two_requests 0 "aaaa" 60000
           (ping_envelope "aaaa") Hwf Ha); discriminate.
Defined.

(** X13.  The listeners tell the calls apart by the identifier alone:
    when two waiting calls have the same identifier, one [Response] with
    that identifier ends both with its [data]. *)
Theorem same_uuid_both_end (w : World) (a b : nat) (u : string) (da db : Z)
    (text : frame) :
  wf w → waiting a u da w → waiting b u db w →
  field "uuid" text = Some (JStr u) →
  field "type" text = Some (JNum (Paylods.code Paylods.response)) →
  over a u (field "data" text) (world_of (emit_message text w)) ∧
  over b u (field "data" text) (world_of (emit_message text w)).
Proof.
  intros Hwf Ha Hb Hu Ht. pose proof (answers_response u text Hu Ht) as Hans.
  split; by eapply emit_message_ends.
Qed.

Lemma twins_waiting :
  wf twins ∧ waiting 0 "aaaa" 60000 twins ∧ waiting 1 "aaaa" 60000 twins.
Proof.
  split; [apply run_wf, run_wf, new_inv|].
  split; (split_and!; [by_evaluation|by_evaluation|reflexivity]).
Qed.

Lemma same_uuid_both_end_witness :
  let text := response_frame "aaaa" (JObj {[ "roles" := JArr [] ]}) in
  over 0 "aaaa" (Some (JObj {[ "roles" := JArr [] ]}))
    (world_of (emit_message text twins)) ∧
  over 1 "aaaa" (Some (JObj {[ "roles" := JArr [] ]}))
    (world_of (emit_message text twins)).
Proof.
  destruct twins_waiting as (Hwf & Ha & Hb).
  apply (same_uuid_both_end twins 0 1 "aaaa" 60000 60000
           (response_frame "aaaa" (JObj {[ "roles" := JArr [] ]})) Hwf Ha Hb);
    reflexivity.
Defined.

(** X23.  The guards are on [request] and [inform] only.  A client that
    is not authorized, or is on hold, cannot call out, and it still
    answers the requests that come in: the handler of a registered route
    is called and its reply is sent. *)
Theorem dispatcher_is_not_guarded (w : World) (doc : json) (name : string)
    (handler : RouteHandler) (p : Promise) :
  wf w →
  _authorized w = false ∨ _on_hold w = true →
  is_type doc Paylods.request = true →
  routes_get (prop "route" doc) (routes w) = Some (name, handler) →
  handler (prop "data" doc) = Returns p →
  (∀ q u, ∃ e, Client.request q u w = Throw e w) ∧
  (∀ ip, ∃ e, Client.inform ip w = Throw e w) ∧
  emit_message (Text doc) w = Normal tt (dispatched name (prop "data" doc) p w).
Proof.
  intros Hwf Hflags Hreq Hroute Hret. split_and!.
  - intros q u. rewrite request_cases.
    destruct Hflags as [->| ->]; cbn; [by eexists|].
    destruct (_authorized w); cbn; by eexists.
  - intros ip. destruct (inform_cases ip w) as [text ->].
    destruct Hflags as [->| ->]; cbn; [by eexists|].
    destruct (_authorized w); cbn; by eexists.
  - by apply (request_dispatched doc name handler).
Qed.

Lemma dispatcher_is_not_guarded_witness :
  let w := run [Route "ping" pong] (Client.new bot) in
  (∀ q u, ∃ e, Client.request q u w = Throw e w) ∧
  (∀ ip, ∃ e, Client.inform ip w = Throw e w) ∧
  emit_message (Text (request_for "ping")) w
  = Normal tt
      (dispatched "ping" (Some (JObj {[ "guild_id" := JNum 123 ]}))
         (Fulfils (Some (JObj {[ "pong" := JBool true ]}))) w).
Proof.
  apply (dispatcher_is_not_guarded (run [Route "ping" pong] (Client.new bot))
           (request_for "ping") "ping" pong
           (Fulfils (Some (JObj {[ "pong" := JBool true ]})))).
  - apply run_wf, new_inv.
  - by left.
  - reflexivity.
  - reflexivity.
  - reflexivity.
Defined.

(** ** The frames of [MessagePayload] *)

(** X14.  The [data] of a [MessagePayload] is never falsy: the
    constructor keeps a truthy [data] and puts the empty object in the
    place of every other, be it absent, [null], [false], [0] or the empty
    string.  So every frame of the class has a [data] member. *)
Theorem data_is_never_falsy (m : MessagePayload.msg) :
  truthy (Some (MessagePayload.this_data (MessagePayload.new m))) = true ∧
  field "data" (encode m)
  = Some (MessagePayload.this_data (MessagePayload.new m)) ∧
  (truthy (MessagePayload.data m) = true →
     Some (MessagePayload.this_data (MessagePayload.new m))
     = MessagePayload.data m) ∧
  (truthy (MessagePayload.data m) = false →
     MessagePayload.this_data (MessagePayload.new m) = JObj ∅).
Proof.
  destruct (encode_fields m) as (_ & _ & _ & _ & _ & _ & _ & Hdata).
  split_and!; [|done|..]; cbn -[truthy];
    destruct (MessagePayload.data m) as [j|]; cbn -[truthy]; try done;
    destruct (truthy (Some j)) eqn:Hj; try done.
Qed.

Lemma roundtrip_witness :
  field "id" (encode no_data) = Some (JStr "bot") ∧
  field "type" (encode no_data) = Some (JNum 5) ∧
  field "route" (encode no_data) = Some (JArr [JStr "a"; JStr "b"]) ∧
  field "traceback" (encode no_data) = None ∧
  field "uuid" (encode no_data) = Some (JStr "aaaa") ∧
  field "destination" (encode no_data) = None ∧
  field "pseudo_object" (encode no_data) = Some JNull ∧
  field "data" (encode no_data) = Some (JObj ∅).
Proof.
  apply (roundtrip no_data).
  - cbn. repeat split; repeat constructor.
  - discriminate.
Defined.

Lemma response_never_has_uuid_witness :
  ∃ text,
    sent (world_of (emit_message (Text (request_for "ping")) (serving pong)))
    = sent (serving pong) ++ [text] ∧
    calls (world_of (emit_message (Text (request_for "ping")) (serving pong)))
    = calls (serving pong)
      ++ [("ping"%string, Some (JObj {[ "guild_id" := JNum 123 ]}))] ∧
    field "type" text = Some (JNum 3) ∧
    field "data" text = Some (JObj {[ "pong" := JBool true ]}) ∧
    field "uuid" text = None ∧
    ∀ u, answers u text = None.
Proof.
  apply (response_never_has_uuid (request_for "ping") "ping" pong
           (Some (JObj {[ "pong" := JBool true ]})) (serving pong)).
  - apply run_wf, run_wf, new_inv.
  - reflexivity.
  - reflexivity.
  - reflexivity.
Defined.

Lemma rejection_reply_witness :
  ∃ text,
    sent (world_of (emit_message (Text (request_for "ping")) (serving rejecting)))
    = sent (serving rejecting) ++ [text] ∧
    field "type" text = Some (JNum 4) ∧
    field "data" text = Some (JStr "no such guild") ∧
    field "uuid" text = None ∧
    field "destination" text = None ∧
    (∀ u, answers u text = None) ∧
    (∀ requester k u d, wf requester → waiting k u d requester →
       waiting k u d (world_of (emit_message text requester))).
Proof.
  apply (rejection_reply (request_for "ping") "ping" rejecting
           (ErrorObject "no such guild") (serving rejecting)).
  - apply run_wf, run_wf, new_inv.
  - reflexivity.
  - reflexivity.
  - reflexivity.
  - discriminate.
Defined.

(** * The other copies of the client *)

(** ** With a static socket *)

Lemma view_back w c :
  Static.view (Static.instance_of w c) (Static.shared_of w) = w.
Proof. by destruct w. Qed.

Lemma wf_view c c' s : wf (Static.view c s) → wf (Static.view c' s).
Proof. intros Hwf. by apply (inv_same _ (Static.view c s)). Qed.

Lemma wf_shared_of w c : wf w → wf (Static.view c (Static.shared_of w)).
Proof. intros Hwf. by apply (inv_same _ w). Qed.

Lemma on_ext {A B} (m : M A) (m' : M B) i P :
  (∀ w, world_of (m w) = world_of (m' w)) → Static.on i m P = Static.on i m' P.
Proof.
  intros Hext. unfold Static.on. destruct (Static.instances P !! i); [|done].
  by rewrite Hext.
Qed.

Lemma start_sound : Static.sound Static.start.
Proof. split; done. Qed.

Lemma sound_connected P c j :
  Static.sound P → Static.instances P !! j = Some c →
  Static.connection P = Some 0%nat.
Proof.
  intros Hs Hj. destruct (Static.connection P) as [i|] eqn:Hc.
  - by destruct (Static.sound_first P Hs i Hc) as [-> _].
  - rewrite (Static.sound_none P Hs Hc) in Hj. by cbn in Hj.
Qed.

(** Code of the instance that owns the socket may be any step; code of
    another instance is a method call. *)
Lemma on_step_sound i e P :
  Static.sound P →
  Static.connection P = Some i ∨ message_of e = None →
  Static.sound (Static.on i (step e) P).
Proof.
  intros Hs Hor. unfold Static.on.
  destruct (Static.instances P !! i) as [c|] eqn:Hi; [|done].
  pose proof (sound_connected P c i Hs Hi) as Hc.
  assert (Hwf : wf (Static.view c (Static.shared P)))
    by (by apply (Static.sound_wf P Hs 0%nat)).
  split; cbn.
  - by rewrite Hc.
  - intros i0 Hi0. destruct (Static.sound_first P Hs i0 Hi0) as [-> [c0 H0]].
    split; [done|]. apply lookup_lt_is_Some. rewrite length_insert.
    by eapply lookup_lt_Some.
  - intros i0 c' _. by apply wf_shared_of, step_wf.
  - intros j c' Hj Hne. destruct (decide (j = i)) as [->|Hji].
    + rewrite list_lookup_insert_eq in Hj by (by eapply lookup_lt_Some).
      injection Hj as <-.
      destruct Hor as [Hown|He]; [congruence|].
      destruct (Static.sound_rest P Hs i c Hi Hne) as (Ha & Hh & Hconn).
      destruct (step_flags e (Static.view c (Static.shared P)) He) as [Hfa Hfh].
      cbn. by rewrite Hfa, Hfh.
    + rewrite list_lookup_insert_ne in Hj by done.
      by apply (Static.sound_rest P Hs j c').
Qed.

Lemma new_sound props P : Static.sound P → Static.sound (Static.new props P).
Proof.
  intros Hs. unfold Static.new, Static.__connect. cbn.
  destruct (Static.connection P) as [i|] eqn:Hc.
  - destruct (Static.sound_first P Hs i Hc) as [-> [c0 H0]].
    split; cbn; try done.
    + intros i0 [= <-]. split; [done|]. exists c0. by apply lookup_app_l_Some.
    + intros i0 c _. by apply (Static.sound_wf P Hs 0%nat).
    + intros j c Hj Hne. apply lookup_app_Some in Hj as [Hj|[_ Hj]].
      * rewrite <- Hc in Hne. by apply (Static.sound_rest P Hs j c).
      * apply list_lookup_singleton_Some in Hj as [_ <-]. done.
  - rewrite (Static.sound_none P Hs Hc). split; cbn; try done.
    + intros i0 [= <-]. split; [done|]. by eexists.
    + intros i0 c _. split; [|done]. split; cbn.
      * by exists [].
      * constructor.
      * intros k. rewrite list_elem_of_singleton, elem_of_nil. naive_solver.
      * intros k. rewrite list_elem_of_singleton. naive_solver.
    + intros [|j] c Hj Hne; [done|]. by cbn in Hj.
Qed.

Lemma handleConnect_sound i u P :
  Static.sound P → Static.connection P = Some i →
  Static.sound (Static.handleConnect i u P).
Proof.
  intros Hs Hc. unfold Static.handleConnect.
  assert (Hs' : Static.sound (Static.on i (Client.__verify u) P)).
  { rewrite (on_ext _ (step (Open u))) by done. apply on_step_sound; auto. }
  assert (Hc' : Static.connection (Static.on i (Client.__verify u) P) = Some i).
  { unfold Static.on. by destruct (Static.instances P !! i). }
  set (P' := Static.on i (Client.__verify u) P) in *.
  split; cbn.
  - by rewrite Hc'.
  - intros i0 Hi0. destruct (Static.sound_first P' Hs' i0 Hi0) as [-> H0].
    split; [done|]. apply lookup_lt_is_Some. rewrite length_alter.
    by apply lookup_lt_is_Some.
  - apply (Static.sound_wf P' Hs').
  - intros j c Hj Hne. rewrite Hc' in Hne.
    rewrite list_lookup_alter_ne in Hj by congruence.
    apply (Static.sound_rest P' Hs' j c Hj). by rewrite Hc'.
Qed.

Lemma happen_sound e P : Static.sound P → Static.sound (Static.happen e P).
Proof.
  intros Hs. destruct e; cbn [Static.happen].
  - by apply new_sound.
  - destruct (Static.connection P) eqn:Hc; [|done]. by apply handleConnect_sound.
  - destruct (Static.connection P) eqn:Hc; [|done].
    apply (on_step_sound _ Close); auto.
  - destruct (Static.connection P) eqn:Hc; [|done].
    apply (on_step_sound _ (Message text)); auto.
  - destruct (Static.connection P) eqn:Hc; [|done].
    apply (on_step_sound _ (Advance t)); auto.
  - apply (on_step_sound _ (Inform p)); auto.
  - rewrite (on_ext _ (step (Request p uuid4))).
    + apply on_step_sound; auto.
    + intros w. cbn. unfold mbind, M_bind.
      by destruct (Client.request p uuid4 w).
  - apply (on_step_sound _ (Route name handler)); auto.
Qed.

Lemma history_sound events P :
  Static.sound P → Static.sound (Static.history events P).
Proof.
  revert P. induction events as [|e events IH]; intros P Hs; [done|].
  cbn. by apply IH, happen_sound.
Qed.

(** X20.  In one process only the instance constructed first is wired
    to the socket.  Every later instance stays unauthorized and
    unconnected whatever happens: no message reaches its handlers, and
    each of its calls of [request] and [inform] throws the not-authorized
    error. *)
Theorem only_the_first_instance_lives (events : list Static.Happening)
    (j : nat) (c : Static.Instance) :
  Static.instances (Static.history events Static.start) !! j = Some c →
  j ≠ 0%nat →
  let P := Static.history events Static.start in
  Static.connection P = Some 0%nat ∧
  Static.inst_authorized c = false ∧
  Static.inst_on_hold c = false ∧
  Static.is_connected c = false ∧
  (∀ p u, Static.result j (Client.request p u) P
          = Some (Throw NotAuthorized (Static.view c (Static.shared P)))) ∧
  (∀ ip, Static.result j (Client.inform ip) P
         = Some (Throw NotAuthorized (Static.view c (Static.shared P)))).
Proof.
  intros Hj Hne P.
  assert (Hs : Static.sound P) by apply history_sound, start_sound.
  pose proof (sound_connected P c j Hs Hj) as Hc.
  destruct (Static.sound_rest P Hs j c Hj) as (Ha & Hh & Hconn);
    [rewrite Hc; congruence|].
  split_and!; try done.
  - intros p u. unfold Static.result, P. rewrite Hj. cbn -[Client.request].
    rewrite request_cases. cbn. by rewrite Ha.
  - intros ip. unfold Static.result, P. rewrite Hj. cbn -[Client.inform].
    destruct (inform_cases ip
                (Static.view c (Static.shared (Static.history events Static.start))))
      as [text ->].
    cbn. by rewrite Ha.
Qed.

Lemma only_the_first_instance_lives_witness :
  let events :=
    [Static.Constructed dashboard; Static.Constructed bot;
     Static.Opened "c0ffee"; Static.Received success_frame;
     Static.Routes 1 "ping" pong] in
  let P := Static.history events Static.start in
  Static.connection P = Some 0%nat ∧
  Static.inst_authorized Static.second_client = false ∧
  Static.inst_on_hold Static.second_client = false ∧
  Static.is_connected Static.second_client = false ∧
  (∀ p u, Static.result 1 (Client.request p u) P
          = Some (Throw NotAuthorized
                    (Static.view Static.second_client (Static.shared P)))) ∧
  (∀ ip, Static.result 1 (Client.inform ip) P
         = Some (Throw NotAuthorized
                   (Static.view Static.second_client (Static.shared P)))).
Proof.
  apply (only_the_first_instance_lives
           [Static.Constructed dashboard; Static.Constructed bot;
            Static.Opened "c0ffee"; Static.Received success_frame;
            Static.Routes 1 "ping" pong] 1 Static.second_client).
  - reflexivity.
  - discriminate.
Defined.

(** *** The flag [is_connected] *)

Lemma on_connected {A} (m : M A) j P i c :
  Static.instances P !! i = Some c → Static.is_connected c = true →
  ∃ c', Static.instances (Static.on j m P) !! i = Some c' ∧
        Static.is_connected c' = true.
Proof.
  intros Hi Hc. unfold Static.on.
  destruct (Static.instances P !! j) as [cj|] eqn:Hj; [|by exists c]. cbn.
  destruct (decide (j = i)) as [->|Hne].
  - rewrite list_lookup_insert_eq by (by eapply lookup_lt_Some).
    eexists. split; [done|]. cbn. congruence.
  - rewrite list_lookup_insert_ne by done. by exists c.
Qed.

Lemma happen_connected e P i c :
  Static.instances P !! i = Some c → Static.is_connected c = true →
  ∃ c', Static.instances (Static.happen e P) !! i = Some c' ∧
        Static.is_connected c' = true.
Proof.
  intros Hi Hc. destruct e; cbn [Static.happen].
  - unfold Static.new, Static.__connect. cbn.
    exists c. split; [|done].
    destruct (Static.connection P); cbn; by apply lookup_app_l_Some.
  - destruct (Static.connection P) as [i0|]; [|by exists c].
    unfold Static.handleConnect. cbn.
    destruct (on_connected (Client.__verify uuid4) i0 P i c Hi Hc)
      as (c' & Hi' & Hc').
    destruct (decide (i0 = i)) as [->|Hne].
    + rewrite list_lookup_alter_eq, Hi'. cbn. by eexists.
    + rewrite list_lookup_alter_ne by done. by exists c'.
  - destruct (Static.connection P) as [i0|]; [|by exists c].
    by apply (on_connected _ _ _ _ c).
  - destruct (Static.connection P) as [i0|]; [|by exists c].
    by apply (on_connected _ _ _ _ c).
  - destruct (Static.connection P) as [i0|]; [|by exists c].
    by apply (on_connected _ _ _ _ c).
  - by apply (on_connected _ _ _ _ c).
  - by apply (on_connected _ _ _ _ c).
  - by apply (on_connected _ _ _ _ c).
Qed.

Lemma history_connected events P i c :
  Static.instances P !! i = Some c → Static.is_connected c = true →
  ∃ c', Static.instances (Static.history events P) !! i = Some c' ∧
        Static.is_connected c' = true.
Proof.
  revert P c. induction events as [|e events IH]; intros P c Hi Hc;
    [by exists c|].
  cbn. destruct (happen_connected e P i c Hi Hc) as (c' & Hi' & Hc').
  by apply (IH _ c').
Qed.

(** X21.  The open event sets [is_connected] of the instance that owns
    the socket, and nothing sets it back: it is true after any events
    that follow, the close event included. *)
Theorem is_connected_is_never_reset (P : Static.Process) (i : nat)
    (u : string) (events : list Static.Happening) :
  Static.connection P = Some i → is_Some (Static.instances P !! i) →
  ∃ c, Static.instances (Static.history (Static.Opened u :: events) P) !! i
       = Some c ∧
       Static.is_connected c = true.
Proof.
  intros Hc [c Hi]. cbn. rewrite Hc.
  assert (∃ c1, Static.instances (Static.handleConnect i u P) !! i = Some c1 ∧
                Static.is_connected c1 = true) as (c1 & Hi1 & Hc1).
  { unfold Static.handleConnect, Static.on. rewrite Hi. cbn.
    rewrite list_lookup_alter_eq, list_lookup_insert_eq
      by (by eapply lookup_lt_Some).
    by eexists. }
  by apply (history_connected events _ i c1).
Qed.

Lemma is_connected_is_never_reset_witness :
  ∃ c, Static.instances
         (Static.history [Static.Opened "c0ffee"; Static.Closed;
                          Static.Received Malformed]
            (Static.new dashboard Static.start)) !! 0%nat
       = Some c ∧
       Static.is_connected c = true.
Proof.
  apply (is_connected_is_never_reset (Static.new dashboard Static.start) 0
           "c0ffee" [Static.Closed; Static.Received Malformed]).
  - reflexivity.
  - by eexists.
Defined.

(** *** The routes of the other instances *)

Lemma emit_unknown_route doc w :
  wf w →
  is_type doc Paylods.request = true →
  routes_get (prop "route" doc) (routes w) = None →
  emit_message (Text doc) w
  = Normal tt (set_sent (sent w ++ [route_not_found (local_name w) doc]) w).
Proof.
  intros [[[ks Hks] _ _ _] Hmt] Hreq Hroute.
  assert (Hdoc : doc ≠ JNull) by (by intros ->).
  rewrite (emit_message_text ks) by done.
  rewrite handleMessage_unknown_route by done.
  rewrite respond_all_idle, drained_idle; [done..|].
  intros u. by apply is_request_only.
Qed.

(** X22.  A request is looked up in the route table of the instance
    that owns the socket, and in no other: for a route that this
    instance has not registered the reply is "Route not found" and no
    handler is called, whatever the other instances of the process have
    registered. *)
Theorem routes_of_other_instances_are_not_served
    (events : list Static.Happening) (c : Static.Instance) (doc : json) :
  let P := Static.history events Static.start in
  Static.instances P !! 0%nat = Some c →
  is_type doc Paylods.request = true →
  routes_get (prop "route" doc) (Static.inst_routes c) = None →
  let P' := Static.happen (Static.Received (Text doc)) P in
  Static.shared_sent (Static.shared P')
  = Static.shared_sent (Static.shared P)
    ++ [route_not_found (Static.inst_local_name c) doc] ∧
  Static.shared_calls (Static.shared P') = Static.shared_calls (Static.shared P).
Proof.
  intros P H0 Hreq Hroute P'.
  assert (Hs : Static.sound P) by apply history_sound, start_sound.
  pose proof (sound_connected P c 0 Hs H0) as Hc.
  assert (Hwf : wf (Static.view c (Static.shared P)))
    by (by apply (Static.sound_wf P Hs 0%nat)).
  unfold P'. cbn [Static.happen]. rewrite Hc. unfold Static.on. rewrite H0.
  rewrite (emit_unknown_route doc _ Hwf Hreq Hroute). done.
Qed.

Lemma routes_of_other_instances_are_not_served_witness :
  let P' := Static.happen (Static.Received (Text (request_for "ping")))
              Static.two_clients in
  Static.instances Static.two_clients !! 1%nat = Some Static.second_client ∧
  Static.inst_routes Static.second_client !! "ping" = Some pong ∧
  Static.shared_sent (Static.shared P')
  = Static.shared_sent (Static.shared Static.two_clients)
    ++ [route_not_found "dashboard" (request_for "ping")] ∧
  Static.shared_calls (Static.shared P')
  = Static.shared_calls (Static.shared Static.two_clients).
Proof.
  split; [reflexivity|]. split; [reflexivity|].
  apply (routes_of_other_instances_are_not_served
           [Static.Constructed dashboard; Static.Constructed bot;
            Static.Opened "c0ffee"; Static.Received success_frame;
            Static.Routes 1 "ping" pong]
           {| Static.inst_routes := ∅;
              Static.inst_authorized := true;
              Static.inst_on_hold := false;
              Static.inst_local_name := "dashboard";
              Static.inst_host := "localhost";
              Static.inst_port := "2033";
              Static.is_connected := true |}
           (request_for "ping")); reflexivity.
Defined.
